(** * Tangram pipeline: bundle-adjustment residuals, parameter packing,
      temporal filter and homography locking

    A shallow embedding of the C++ headers under
    [TangramPipeline/bundle_adjustment/]:

    - [CostFunctions.h]: [ReprojectionCostFunctor] (the templated
      [operator()] and the static [getCandidateMappings]),
      [HPriorCostFunctor] and [ScalePriorCostFunctor], embedded from
      the source text;
    - [Parameterization.h], [KalmanTracker.h] and [TrackedBA.h]: only
      the declarations and the default member initialisers are in the
      headers; the bodies are modelled from the specification and
      marked as such.

    The functor's [operator()] is a template over the scalar type [T]
    (a [double] or an automatic-differentiation jet).  The embedding keeps
    that genericity as a type class [Scalar], with two instances:
    binary64 floats, the arithmetic the program runs, and real numbers,
    the exact reading of the formulas.  The reals have neither rounding
    nor an exponent range: a product of reals never overflows to
    infinity and never underflows to zero.  Statements on which the
    exponent range bears (which candidate the search takes, and whether
    it takes one at all) are therefore proved for every scalar type from
    the order properties of its comparison, and so hold of binary64 as
    they stand; the real instance carries the statements about the
    formulas themselves, from which the computed values differ by
    rounding. *)

From Stdlib Require Import PrimFloat.
From Stdlib Require Uint63 FloatAxioms SpecFloat.
From Stdlib Require Import Reals Lra Lia List String ZArith Bool.
From stdpp Require Import base option list gmap strings.
Import ListNotations.

Local Open Scope nat_scope.

(* ===================================================================== *)
(** * The scalar interface of the template parameter [T]                  *)
(* ===================================================================== *)

(** Arithmetic, [ceres::sqrt], [ceres::abs] and the comparisons the
    functor uses, with the constants it builds through [T(...)]. *)
Class Scalar (T : Type) : Type := {
  s_zero : T;                 (* T(0.0) *)
  s_one  : T;                 (* T(1.0) *)
  s_two  : T;                 (* T(2.0) *)
  s_eps  : T;                 (* T(1e-8) *)
  s_max  : T;                 (* T(std::numeric_limits<double>::max()) *)
  s_add  : T -> T -> T;
  s_sub  : T -> T -> T;
  s_mul  : T -> T -> T;
  s_div  : T -> T -> T;
  s_sqrt : T -> T;
  s_abs  : T -> T;
  s_ltb  : T -> T -> bool;
  s_leb  : T -> T -> bool;
  s_eqb  : T -> T -> bool;
  s_of_Z : Z -> T             (* T(n) for an integer-valued literal *)
}.

(** [ceres::cos] and [ceres::sin]. *)
Class Trig (T : Type) : Type := {
  s_cos : T -> T;
  s_sin : T -> T
}.

Declare Scope scalar_scope.
Delimit Scope scalar_scope with sc.
Infix "+" := s_add : scalar_scope.
Infix "-" := s_sub : scalar_scope.
Infix "*" := s_mul : scalar_scope.
Infix "<?" := s_ltb : scalar_scope.
Infix "<=?" := s_leb : scalar_scope.

(** Real numbers: the exact reading of the arithmetic, without rounding
    and without an exponent range. *)
Definition Rltb (x y : R) : bool := if Rlt_dec x y then true else false.
Definition Rleb (x y : R) : bool := if Rle_dec x y then true else false.
Definition Reqb (x y : R) : bool := if Req_dec_T x y then true else false.

(** The largest finite binary64 value, (2^53 - 1) * 2^971. *)
Definition DBL_MAX_Z : Z := Eval vm_compute in ((2 ^ 53 - 1) * 2 ^ 971)%Z.
Definition DBL_MAX : R := IZR DBL_MAX_Z.

#[export] Instance Scalar_R : Scalar R := {|
  s_zero := 0%R; s_one := 1%R; s_two := 2%R;
  s_eps := 1e-8%R; s_max := DBL_MAX;
  s_add := Rplus; s_sub := Rminus; s_mul := Rmult; s_div := Rdiv;
  s_sqrt := sqrt; s_abs := Rabs;
  s_ltb := Rltb; s_leb := Rleb; s_eqb := Reqb;
  s_of_Z := IZR
|}.

#[export] Instance Trig_R : Trig R := {| s_cos := cos; s_sin := sin |}.

(** An integer of magnitude below 2^53 as a binary64 value. *)
Definition float_of_Z (z : Z) : float :=
  if (z <? 0)%Z
  then PrimFloat.opp (PrimFloat.of_uint63 (Uint63.of_Z (- z)))
  else PrimFloat.of_uint63 (Uint63.of_Z z).

(** Binary64 floats, [T = double]: 1e-8 and [DBL_MAX] written as the
    exact binary64 values the C++ literals denote. *)
#[export] Instance Scalar_double : Scalar float := {|
  s_zero := 0%float; s_one := 1%float; s_two := 2%float;
  s_eps := 0x1.5798ee2308c3ap-27%float;
  s_max := 0x1.fffffffffffffp+1023%float;
  s_add := PrimFloat.add; s_sub := PrimFloat.sub;
  s_mul := PrimFloat.mul; s_div := PrimFloat.div;
  s_sqrt := PrimFloat.sqrt; s_abs := PrimFloat.abs;
  s_ltb := PrimFloat.ltb; s_leb := PrimFloat.leb; s_eqb := PrimFloat.eqb;
  s_of_Z := float_of_Z
|}.

(* ===================================================================== *)
(** * Undefined behaviour as an error result                              *)
(* ===================================================================== *)

(** The two ways the functor's body can leave defined behaviour: a
    division whose second operand is zero, and [operator[]] past the end
    of a [std::vector]. *)
Inductive fault : Type :=
  | DivisionByZero
  | IndexOutOfRange.

Inductive outcome (A : Type) : Type :=
  | Done (a : A)
  | Undefined (f : fault).
Arguments Done {A} a.
Arguments Undefined {A} f.

Definition obind {A B : Type} (k : A -> outcome B) (m : outcome A) : outcome B :=
  match m with
  | Done a => k a
  | Undefined f => Undefined f
  end.

#[export] Instance outcome_bind : MBind outcome := @obind.
#[export] Instance outcome_ret : MRet outcome := @Done.

(** [a / b] on scalars. *)
Definition checked_div {T : Type} `{Scalar T} (a b : T) : outcome T :=
  if s_eqb b s_zero then Undefined DivisionByZero else Done (s_div a b).

(** [v[i]] on a [std::vector]. *)
Definition at_index {A : Type} (v : list A) (i : nat) : outcome A :=
  match v !! i with
  | Some a => Done a
  | None => Undefined IndexOutOfRange
  end.

(** A [T*] block (parameters in, residuals out) is read and written by
    index; its extent is not known to the functor. *)
Definition block (T : Type) : Type := nat -> T.

Definition store {T : Type} (b : block T) (i : nat) (v : T) : block T :=
  fun j => if Nat.eqb j i then v else b j.

(** A block holding the given values from index 0 on. *)
Definition block_of {T : Type} (dflt : T) (l : list T) : block T :=
  fun j => nth j l dflt.

(* ===================================================================== *)
(** * CostFunctions.h: getCandidateMappings                               *)
(* ===================================================================== *)

Record Point (T : Type) : Type := mkPoint { pt_x : T; pt_y : T }.
Arguments mkPoint {T} pt_x pt_y.
Arguments pt_x {T} p.
Arguments pt_y {T} p.

(** [std::rotate(v.begin(), v.begin() + k, v.end())] for [k <= size]:
    the element at index [k] becomes the first one. *)
Definition rotate {A : Type} (k : nat) (v : list A) : list A :=
  drop k v ++ take k v.

(** [for (size_t k = k0; k < n; ++k) { rolled = pts; rotate by k;
    cands.push_back(rolled); }], with [todo = n - k0] iterations left. *)
Fixpoint push_rolled {A : Type} (pts : list A) (k todo : nat)
    (cands : list (list A)) : list (list A) :=
  match todo with
  | O => cands
  | S todo' => push_rolled pts (S k) todo' (cands ++ [rotate k pts])
  end.

(** The test guarding the reversed orderings. *)
Definition wants_reversed (shape_type : string) (n : nat) : bool :=
  String.eqb shape_type "triangle" || String.eqb shape_type "parallelogram"
  || String.eqb shape_type "square" || Nat.eqb n 3 || Nat.eqb n 4.

Definition getCandidateMappings {A : Type} (pts : list A)
    (shape_type : string) : list (list A) :=
  let cands := [] in
  match pts with
  | [] => cands
  | _ :: _ =>
      let n := length pts in
      let cands := push_rolled pts 0 n cands in
      if wants_reversed shape_type n then
        let pts_rev := rev pts in
        push_rolled pts_rev 0 n cands
      else cands
  end.

(** The [n] cyclic shifts of a vector, in order of the shift. *)
Definition cyclic_shifts {A : Type} (v : list A) : list (list A) :=
  map (fun k => rotate k v) (seq 0 (length v)).

(** The shape types and sizes for which the claim promises reflections. *)
Definition admits_reflection (shape_type : string) (n : nat) : Prop :=
  shape_type = "triangle"%string \/ shape_type = "parallelogram"%string
  \/ shape_type = "square"%string \/ n = 3 \/ n = 4.

(* ===================================================================== *)
(** * CostFunctions.h: ReprojectionCostFunctor                            *)
(* ===================================================================== *)

Section ReprojectionCost.
Context {T : Type} {ST : Scalar T}.

Record ReprojectionCostFunctor : Type := {
  detected_points_ : list (Point T);
  model_points_ : list (Point T);
  shape_type_ : string;
  weight_sqrt_ : T;
  f_scale_ : T
}.

(** The constructor stores [std::sqrt(weight)]. *)
Definition mkReprojectionCostFunctor (detected model : list (Point T))
    (shape_type : string) (weight f_scale : T) : ReprojectionCostFunctor :=
  {| detected_points_ := detected; model_points_ := model;
     shape_type_ := shape_type;
     weight_sqrt_ := s_sqrt weight; f_scale_ := f_scale |}.

(** The local [T H[3][3]] filled from the eight entries of [H_params],
    with [H[2][2] = T(1.0)]. *)
Definition H_entry (H_params : block T) (r c : nat) : T :=
  match r, c with
  | 0, 0 => H_params 0 | 0, 1 => H_params 1 | 0, _ => H_params 2
  | 1, 0 => H_params 3 | 1, 1 => H_params 4 | 1, _ => H_params 5
  | _, 0 => H_params 6 | _, 1 => H_params 7 | _, _ => s_one
  end.

(** Scale, rotate and translate a model vertex into the plane. *)
Definition plane_point (scale cos_theta sin_theta tx ty : T)
    (p_model : Point T) : Point T :=
  let model_x := (pt_x p_model * scale)%sc in
  let model_y := (pt_y p_model * scale)%sc in
  let plane_x := (cos_theta * model_x - sin_theta * model_y + tx)%sc in
  let plane_y := (sin_theta * model_x + cos_theta * model_y + ty)%sc in
  mkPoint plane_x plane_y.

(** [H[2][0] * plane_x + H[2][1] * plane_y + H[2][2]], before the test. *)
Definition perspective_w (H_params : block T) (pl : Point T) : T :=
  (H_entry H_params 2 0 * pt_x pl + H_entry H_params 2 1 * pt_y pl
   + H_entry H_params 2 2)%sc.

(** [if (ceres::abs(projected_w) < T(1e-8)) projected_w = T(1e-8);] *)
Definition clamp_w (projected_w : T) : T :=
  if (s_abs projected_w <? s_eps)%sc then s_eps else projected_w.

Definition numerator_x (H_params : block T) (pl : Point T) : T :=
  (H_entry H_params 0 0 * pt_x pl + H_entry H_params 0 1 * pt_y pl
   + H_entry H_params 0 2)%sc.

Definition numerator_y (H_params : block T) (pl : Point T) : T :=
  (H_entry H_params 1 0 * pt_x pl + H_entry H_params 1 1 * pt_y pl
   + H_entry H_params 1 2)%sc.

(** One iteration of the projection loop. *)
Definition project_point (H_params : block T)
    (scale cos_theta sin_theta tx ty : T) (p_model : Point T)
    : outcome (Point T) :=
  let pl := plane_point scale cos_theta sin_theta tx ty p_model in
  let projected_w := clamp_w (perspective_w H_params pl) in
  projected_x ← checked_div (numerator_x H_params pl) projected_w;
  projected_y ← checked_div (numerator_y H_params pl) projected_w;
  Done (mkPoint projected_x projected_y).

(** [for (const auto& p_model : model_points_) ... push_back]. *)
Fixpoint project_model_points (H_params : block T)
    (scale cos_theta sin_theta tx ty : T) (model : list (Point T))
    : outcome (list (Point T)) :=
  match model with
  | [] => Done []
  | p_model :: rest =>
      q ← project_point H_params scale cos_theta sin_theta tx ty p_model;
      qs ← project_model_points H_params scale cos_theta sin_theta tx ty rest;
      Done (q :: qs)
  end.

(** The [huber] lambda. *)
Definition huber (s2 : T) : T :=
  if (s2 <=? s_one)%sc then s2 else (s_two * s_sqrt s2 - s_one)%sc.

(** The inner loop over [i], entered at index [i] with the vertices of
    [projected_model_points] from [i] on still to visit. *)
Fixpoint candidate_cost_from (F : ReprojectionCostFunctor)
    (projected : list (Point T)) (cand_double : list (Point T))
    (i : nat) (cost : T) : outcome T :=
  match projected with
  | [] => Done cost
  | q :: rest =>
      d ← at_index cand_double i;
      let dx := ((pt_x q - pt_x d) * weight_sqrt_ F)%sc in
      let dy := ((pt_y q - pt_y d) * weight_sqrt_ F)%sc in
      let fs := f_scale_ F in
      rx ← checked_div dx fs;
      ry ← checked_div dy fs;
      let sx2 := (rx * rx)%sc in
      let sy2 := (ry * ry)%sc in
      candidate_cost_from F rest cand_double (S i)
        (cost + (huber sx2 + huber sy2))%sc
  end.

Definition candidate_cost (F : ReprojectionCostFunctor)
    (projected cand_double : list (Point T)) : outcome T :=
  candidate_cost_from F projected cand_double 0 s_zero.

(** The loop over [c_idx], entered at [c_idx] with the candidates from
    there on still to visit; [best_candidate_idx] is an [int]. *)
Fixpoint search_from (F : ReprojectionCostFunctor)
    (projected : list (Point T)) (candidates : list (list (Point T)))
    (c_idx : nat) (min_cost : T) (best_candidate_idx : Z)
    : outcome (T * Z) :=
  match candidates with
  | [] => Done (min_cost, best_candidate_idx)
  | cand_double :: rest =>
      cost ← candidate_cost F projected cand_double;
      if (cost <? min_cost)%sc
      then search_from F projected rest (S c_idx) cost (Z.of_nat c_idx)
      else search_from F projected rest (S c_idx) min_cost best_candidate_idx
  end.

(** The loop writing the winning candidate's weighted deltas. *)
Fixpoint write_residuals (F : ReprojectionCostFunctor)
    (projected : list (Point T)) (best_cand_double : list (Point T))
    (i : nat) (residuals : block T) : outcome (block T) :=
  match projected with
  | [] => Done residuals
  | q :: rest =>
      d ← at_index best_cand_double i;
      let residuals :=
        store residuals (2 * i) (weight_sqrt_ F * (pt_x q - pt_x d))%sc in
      d' ← at_index best_cand_double i;
      let residuals :=
        store residuals (2 * i + 1) (weight_sqrt_ F * (pt_y q - pt_y d'))%sc in
      write_residuals F rest best_cand_double (S i) residuals
  end.

(** The loop of the [else] branch, [todo] iterations from index [i]. *)
Fixpoint write_zeros (i todo : nat) (residuals : block T) : block T :=
  match todo with
  | O => residuals
  | S todo' =>
      let residuals := store residuals (2 * i) s_zero in
      let residuals := store residuals (2 * i + 1) s_zero in
      write_zeros (S i) todo' residuals
  end.

(** [operator()] from the correspondence search on, given the projected
    model points. *)
Definition correspond_and_fill (F : ReprojectionCostFunctor)
    (projected : list (Point T)) (residuals : block T)
    : outcome (bool * block T) :=
  let candidates := getCandidateMappings (detected_points_ F) (shape_type_ F) in
  let min_cost := s_max in
  let best_candidate_idx := (-1)%Z in
  found ← search_from F projected candidates 0 min_cost best_candidate_idx;
  let best_candidate_idx := snd found in
  if negb (Z.eqb best_candidate_idx (-1)) then
    best_cand_double ← at_index candidates (Z.to_nat best_candidate_idx);
    residuals ← write_residuals F projected best_cand_double 0 residuals;
    Done (true, residuals)
  else
    Done (true, write_zeros 0 (length (model_points_ F)) residuals).

(** The body of [operator()] from the projection loop on, once
    [cos_theta] and [sin_theta] are at hand. *)
Definition operator_body (F : ReprojectionCostFunctor) (H_params : block T)
    (scale cos_theta sin_theta tx ty : T) (residuals : block T)
    : outcome (bool * block T) :=
  projected ← project_model_points H_params scale cos_theta sin_theta
                    tx ty (model_points_ F);
  correspond_and_fill F projected residuals.

(** [operator()]: the returned [bool] and the residual block after the
    call. *)
Definition operator_call {TT : Trig T} (F : ReprojectionCostFunctor)
    (H_params scale_param pose_params : block T) (residuals : block T)
    : outcome (bool * block T) :=
  let scale := scale_param 0 in
  let theta := pose_params 0 in
  let tx := pose_params 1 in
  let ty := pose_params 2 in
  let cos_theta := s_cos theta in
  let sin_theta := s_sin theta in
  operator_body F H_params scale cos_theta sin_theta tx ty residuals.

End ReprojectionCost.

Arguments ReprojectionCostFunctor T : clear implicits.

(** ** Reading the projection over the reals *)

(** The point the projection loop pushes for one model vertex, written
    with the field operations of [R]. *)
Definition projected_point (H_params : block R)
    (scale cos_theta sin_theta tx ty : R) (p_model : Point R) : Point R :=
  let pl := plane_point scale cos_theta sin_theta tx ty p_model in
  let w := clamp_w (perspective_w H_params pl) in
  mkPoint (numerator_x H_params pl / w)%R (numerator_y H_params pl / w)%R.

(** The projected model polygon for given parameter blocks. *)
Definition projected_points (F : ReprojectionCostFunctor R)
    (H_params scale_param pose_params : block R) : list (Point R) :=
  map (projected_point H_params (scale_param 0) (cos (pose_params 0))
         (sin (pose_params 0)) (pose_params 1) (pose_params 2))
      (model_points_ F).

(** The sign of a real number: 1, 0 or -1. *)
Definition Rsign (x : R) : Z :=
  if Rlt_dec 0 x then 1%Z else if Rlt_dec x 0 then (-1)%Z else 0%Z.

(** Every candidate's cost loop stays within defined behaviour. *)
Definition costs_defined (F : ReprojectionCostFunctor R)
    (projected : list (Point R)) (cands : list (list (Point R))) : Prop :=
  Forall (fun cand => exists c, candidate_cost F projected cand = Done c) cands.

(** ** Concrete parameter blocks and functors *)

(** The identity homography as the eight-entry block. *)
Definition identity_H : block R := block_of 0%R [1; 0; 0; 0; 1; 0; 0; 0]%R.

Definition unit_scale : block R := block_of 0%R [1%R].

(** The pose block [(theta, tx, ty)]. *)
Definition pose_block (theta tx ty : R) : block R :=
  block_of 0%R [theta; tx; ty].

Definition unit_triangle : list (Point R) :=
  [mkPoint 0 0; mkPoint 1 0; mkPoint 0 1]%R.

(** A triangle detected exactly where its model lies, weight 1 and
    robustness scale 1. *)
Definition triangle_functor : ReprojectionCostFunctor R :=
  mkReprojectionCostFunctor unit_triangle unit_triangle "triangle" 1%R 1%R.

(** The same functor at [T = double]. *)
Definition triangle_functor_double : ReprojectionCostFunctor float :=
  mkReprojectionCostFunctor
    [mkPoint 0 0; mkPoint 1 0; mkPoint 0 1]%float
    [mkPoint 0 0; mkPoint 1 0; mkPoint 0 1]%float "triangle" 1%float 1%float.

(** The projection of that triangle translated by [(0.5, 0.25)]. *)
Definition shifted_triangle_double : list (Point float) :=
  [mkPoint 0.5 0.25; mkPoint 1.5 0.25; mkPoint 0.5 1.25]%float.

(** A homography whose perspective row makes the denominator vanish on
    the line [x = 1] of the plane. *)
Definition vanishing_H : block R := block_of 0%R [1; 0; 0; 0; 1; 0; -1; 0]%R.

(** A residual block before the call, every slot holding 7. *)
Definition stale_residuals : block R := fun _ => 7%R.

(** What the claim on the returned residuals promises of one evaluation:
    some candidate ordering whose plain weighted deltas fill the block. *)
Definition weighted_deltas_written (F : ReprojectionCostFunctor R)
    (H_params scale_param pose_params residuals : block R) : Prop :=
  exists best residuals',
    best ∈ getCandidateMappings (detected_points_ F) (shape_type_ F)
    /\ operator_call F H_params scale_param pose_params residuals
       = Done (true, residuals')
    /\ forall i q d,
         projected_points F H_params scale_param pose_params !! i = Some q ->
         best !! i = Some d ->
         residuals' (2 * i) = (weight_sqrt_ F * (pt_x q - pt_x d))%R
         /\ residuals' (2 * i + 1) = (weight_sqrt_ F * (pt_y q - pt_y d))%R.

(** The plane point of the model vertex [(1, 0)] translated by [1e-9]:
    under [vanishing_H] its denominator is [-1e-9]. *)
Definition grazing_point : Point R :=
  plane_point 1%R 1%R 0%R 1e-9%R 0%R (mkPoint 1%R 0%R).

(** Reading the first [n] slots of a block. *)
Definition slots {T : Type} (n : nat) (b : block T) : list T :=
  map b (seq 0 n).

(** The outcome of an evaluation with its first [n] residual slots. *)
Definition observed {T : Type} (n : nat) (o : outcome (bool * block T))
    : outcome (bool * list T) :=
  r ← o; Done (fst r, slots n (snd r)).

Definition identity_H_double : block float :=
  block_of 0%float [1; 0; 0; 0; 1; 0; 0; 0]%float.

Definition vanishing_H_double : block float :=
  block_of 0%float [1; 0; 0; 0; 1; 0; -1; 0]%float.

Definition stale_residuals_double : block float := fun _ => 7%float.

(* ===================================================================== *)
(** * Types.h                                                             *)
(* ===================================================================== *)

Module Types.
Section Records.
Context {T : Type}.

Record Pose : Type := mkPose { theta : T; tx : T; ty : T }.

(** [cv::Matx33d], row by row. *)
Record Matx33d : Type := mkMatx33d {
  m00 : T; m01 : T; m02 : T;
  m10 : T; m11 : T; m12 : T;
  m20 : T; m21 : T; m22 : T
}.

Record Correspondence : Type := mkCorrespondence {
  shift : Z;
  reflected : bool;
  mirrored_model : bool
}.

Record BASolution : Type := mkBASolution {
  H : Matx33d;
  scale : T;
  poses : gmap Z Pose;
  errors : gmap Z T;
  correspondences : gmap Z Correspondence;
  trackingQuality : T;
  homographyLocked : bool;
  timings : gmap string T
}.

Record BAInputs : Type := mkBAInputs {
  detected_points : list (list (Point T));
  model_points : list (list (Point T));
  shape_types : list string;
  class_ids : list Z;
  has_initial_guess : bool;
  H_init : Matx33d;
  scale_init : T;
  poses_init : list Pose
}.

End Records.
Arguments Pose T : clear implicits.
Arguments Matx33d T : clear implicits.
Arguments BASolution T : clear implicits.
Arguments BAInputs T : clear implicits.
End Types.

(* ===================================================================== *)
(** * Parameterization.h and KalmanTracker.h                              *)
(* ===================================================================== *)

Section Tracking.
Context {T : Type} {ST : Scalar T}.

(** The eight free entries of a homography, row by row. *)
Definition h_free_params (H : Types.Matx33d T) : list T :=
  [Types.m00 H; Types.m01 H; Types.m02 H;
   Types.m10 H; Types.m11 H; Types.m12 H;
   Types.m20 H; Types.m21 H].

(** The three state entries of one piece; a piece without a pose holds
    zeros. *)
Definition pose_slots (p : option (Types.Pose T)) : list T :=
  match p with
  | Some p => [Types.theta p; Types.tx p; Types.ty p]
  | None => [s_zero; s_zero; s_zero]
  end.

(** Modelled from the spec: the body of [packParamsTracked], declared in
    Parameterization.h.  The state vector is the 8 free homography
    entries, then the scale, then 3 entries per object for objects
    [0 .. n_objects-1] in the order of the class id. *)
Definition packParamsTracked (H : Types.Matx33d T) (scale : T)
    (poses : gmap Z (Types.Pose T)) (n_objects : nat) : list T :=
  h_free_params H ++ [scale]
  ++ flat_map (fun i => pose_slots (poses !! Z.of_nat i)) (seq 0 n_objects).

(** Modelled from the spec: the body of [unpackParamsTracked], declared
    in Parameterization.h.  The inverse layout; the homography is
    gauge-fixed, its bottom-right entry is 1. *)
Definition unpackParamsTracked (x : list T) (n_objects : nat)
    : Types.Matx33d T * T * gmap Z (Types.Pose T) :=
  let entry := fun i => nth i x s_zero in
  let H := Types.mkMatx33d (entry 0) (entry 1) (entry 2)
             (entry 3) (entry 4) (entry 5)
             (entry 6) (entry 7) s_one in
  let scale := entry 8 in
  let poses :=
    list_to_map
      (map (fun i => (Z.of_nat i,
                      Types.mkPose (entry (9 + 3 * i)) (entry (9 + 3 * i + 1))
                        (entry (9 + 3 * i + 2))))
           (seq 0 n_objects)) in
  (H, scale, poses).

Definition N_STATES : nat := 30.
Definition N_OBJECTS : nat := 7.
Definition MAX_INNOVATION_HISTORY : nat := 10.

Record KalmanTracker : Type := mkKalmanTracker {
  initialized_ : bool;
  state_ : list T;
  P_ : list (list T);
  timestamp_ : T;
  observed_objects_ : gset Z;
  process_noise_scale_ : T;
  measurement_noise_scale_ : T;
  innovation_history_ : list T
}.

(** The constructor, with the default member initialisers of the header. *)
Definition KalmanTracker_new (process_noise_scale measurement_noise_scale : T)
    : KalmanTracker :=
  {| initialized_ := false; state_ := []; P_ := [];
     timestamp_ := s_zero; observed_objects_ := ∅;
     process_noise_scale_ := process_noise_scale;
     measurement_noise_scale_ := measurement_noise_scale;
     innovation_history_ := [] |}.

Definition isInitialized (kt : KalmanTracker) : bool := initialized_ kt.

(** Modelled from the spec: the body of [KalmanTracker::initialize],
    declared in KalmanTracker.h.  It sets the flattened state directly,
    seeds the covariance, records the timestamp and the piece ids seen,
    and marks the filter initialised.  The spec fixes no value for the
    seed covariance; it is the parameter [seed_P]. *)
Definition initialize (seed_P : list (list T)) (kt : KalmanTracker)
    (H : Types.Matx33d T) (scale : T) (poses : gmap Z (Types.Pose T))
    (timestamp : T) : KalmanTracker :=
  {| initialized_ := true;
     state_ := packParamsTracked H scale poses N_OBJECTS;
     P_ := seed_P;
     timestamp_ := timestamp;
     observed_objects_ := dom poses;
     process_noise_scale_ := process_noise_scale_ kt;
     measurement_noise_scale_ := measurement_noise_scale_ kt;
     innovation_history_ := innovation_history_ kt |}.

(** Modelled from the spec: the body of [KalmanTracker::getState],
    declared in KalmanTracker.h.  It unpacks the flattened vector; of the
    seven pose slots it reports those of the piece ids observed so far. *)
Definition getState (kt : KalmanTracker)
    : Types.Matx33d T * T * gmap Z (Types.Pose T) :=
  let '(H, scale, all_poses) := unpackParamsTracked (state_ kt) N_OBJECTS in
  (H, scale,
   filter (fun kv => fst kv ∈ observed_objects_ kt) all_poses).

End Tracking.
Arguments KalmanTracker T : clear implicits.

(** The invariants of the data model on what the filter is given: the
    homography is gauge-fixed, and the piece ids are those of the seven
    tracked objects. *)
Definition gauge_fixed {T : Type} {ST : Scalar T} (H : Types.Matx33d T) : Prop :=
  Types.m22 H = s_one.

Definition tracked_ids {A : Type} (poses : gmap Z A) : Prop :=
  forall k, k ∈ dom poses -> (0 <= k < Z.of_nat N_OBJECTS)%Z.

(** A gauge-fixed homography, and poses for pieces 0 and 3, in binary64. *)
Definition sample_H_double : Types.Matx33d float :=
  (Types.mkMatx33d 1 0.5 3 0.25 1 4 0.125 0 1)%float.

(** A fresh filter with the constructor's default noise scales, 0.01 and
    1.0. *)
Definition fresh_tracker_double : KalmanTracker float :=
  KalmanTracker_new 0x1.47ae147ae147bp-7%float 1%float.

Definition sample_poses_double : gmap Z (Types.Pose float) :=
  {[ 0%Z := Types.mkPose 0.5 1 2; 3%Z := Types.mkPose 0.25 3 4 ]}%float.

(* ===================================================================== *)
(** * TrackedBA.h                                                         *)
(* ===================================================================== *)

Section Orchestrator.
Context {T : Type} {ST : Scalar T}.

(** The members of [TrackedBA] but the two owned objects ([tracker_] and
    [ba_solver_]), which the gate and the lock do not read. *)
Record TrackedBA : Type := mkTrackedBA {
  (* Configuration *)
  locking_enabled_ : bool;
  frames_needed_for_lock_ : Z;
  lock_error_threshold_ : T;
  unlock_error_threshold_ : T;
  error_rejection_threshold_ : T;
  h_update_min_improvement_ : T;
  h_update_max_norm_ : T;
  (* State *)
  previous_mean_error_ : T;
  accepted_H_ : Types.Matx33d T;
  accepted_scale_ : T;
  (* Locking state *)
  homography_locked_ : bool;
  locked_H_ : Types.Matx33d T;
  locked_scale_ : T;
  frames_stable_ : Z;
  (* Telemetry of last run *)
  last_used_warm_start_ : bool;
  last_optimization_time_ms_ : T
}.

(** A default-constructed [cv::Matx33d]: all entries zero. *)
Definition Matx33d_zero : Types.Matx33d T :=
  Types.mkMatx33d s_zero s_zero s_zero s_zero s_zero s_zero
    s_zero s_zero s_zero.

(** The object as the default member initialisers of the header leave
    it: locking on, 5 frames to lock, thresholds 5.0, 15.0 and 2.0, gate
    at 0.05 and 0.10, no previous mean error (-1.0). *)
Definition TrackedBA_new : TrackedBA :=
  {| locking_enabled_ := true;
     frames_needed_for_lock_ := 5;
     lock_error_threshold_ := s_of_Z 5;
     unlock_error_threshold_ := s_of_Z 15;
     error_rejection_threshold_ := s_of_Z 2;
     h_update_min_improvement_ := s_div (s_of_Z 5) (s_of_Z 100);
     h_update_max_norm_ := s_div (s_of_Z 1) (s_of_Z 10);
     previous_mean_error_ := s_of_Z (-1);
     accepted_H_ := Matx33d_zero;
     accepted_scale_ := s_one;
     homography_locked_ := false;
     locked_H_ := Matx33d_zero;
     locked_scale_ := s_one;
     frames_stable_ := 0;
     last_used_warm_start_ := false;
     last_optimization_time_ms_ := s_zero |}.

Definition isLockingEnabled (ba : TrackedBA) : bool := locking_enabled_ ba.
Definition isHomographyLocked (ba : TrackedBA) : bool := homography_locked_ ba.

(** The object with its per-frame state replaced and its configuration
    and telemetry kept. *)
Definition with_state (ba : TrackedBA) (previous_mean_error : T)
    (accepted_H : Types.Matx33d T) (accepted_scale : T)
    (homography_locked : bool) (locked_H : Types.Matx33d T)
    (locked_scale : T) (frames_stable : Z) : TrackedBA :=
  {| locking_enabled_ := locking_enabled_ ba;
     frames_needed_for_lock_ := frames_needed_for_lock_ ba;
     lock_error_threshold_ := lock_error_threshold_ ba;
     unlock_error_threshold_ := unlock_error_threshold_ ba;
     error_rejection_threshold_ := error_rejection_threshold_ ba;
     h_update_min_improvement_ := h_update_min_improvement_ ba;
     h_update_max_norm_ := h_update_max_norm_ ba;
     previous_mean_error_ := previous_mean_error;
     accepted_H_ := accepted_H;
     accepted_scale_ := accepted_scale;
     homography_locked_ := homography_locked;
     locked_H_ := locked_H;
     locked_scale_ := locked_scale;
     frames_stable_ := frames_stable;
     last_used_warm_start_ := last_used_warm_start_ ba;
     last_optimization_time_ms_ := last_optimization_time_ms_ ba |}.

(** Modelled from the spec: the body of [TrackedBA::setLockingEnabled],
    declared in TrackedBA.h.  It sets the switch. *)
Definition setLockingEnabled (ba : TrackedBA) (enabled : bool) : TrackedBA :=
  {| locking_enabled_ := enabled;
     frames_needed_for_lock_ := frames_needed_for_lock_ ba;
     lock_error_threshold_ := lock_error_threshold_ ba;
     unlock_error_threshold_ := unlock_error_threshold_ ba;
     error_rejection_threshold_ := error_rejection_threshold_ ba;
     h_update_min_improvement_ := h_update_min_improvement_ ba;
     h_update_max_norm_ := h_update_max_norm_ ba;
     previous_mean_error_ := previous_mean_error_ ba;
     accepted_H_ := accepted_H_ ba;
     accepted_scale_ := accepted_scale_ ba;
     homography_locked_ := homography_locked_ ba;
     locked_H_ := locked_H_ ba;
     locked_scale_ := locked_scale_ ba;
     frames_stable_ := frames_stable_ ba;
     last_used_warm_start_ := last_used_warm_start_ ba;
     last_optimization_time_ms_ := last_optimization_time_ms_ ba |}.

(** The fractional improvement of the mean piece error relative to the
    previous one. *)
Definition improvement (previous_mean_error mean_error : T) : T :=
  s_div (previous_mean_error - mean_error)%sc previous_mean_error.

(** The Euclidean norm of the change of the eight free homography
    entries. *)
Definition h_update_norm (H_new H_old : Types.Matx33d T) : T :=
  s_sqrt (fold_right s_add s_zero
            (zip_with (fun a b => ((a - b) * (a - b))%sc)
               (h_free_params H_new) (h_free_params H_old))).

(** Modelled from the spec: step 5 of [TrackedBA::processFrame], the
    H-update gate.  The candidate passes when the mean error improved by
    at least [h_update_min_improvement_] and the norm of the H change is
    below [h_update_max_norm_]; with locking disabled the gate always
    passes.  The spec states no exception for a first frame. *)
Definition gate_passes (ba : TrackedBA) (candidate : Types.BASolution T)
    (mean_error : T) : bool :=
  if locking_enabled_ ba then
    (h_update_min_improvement_ ba
       <=? improvement (previous_mean_error_ ba) mean_error)%sc
    && (h_update_norm (Types.H candidate) (accepted_H_ ba)
          <? h_update_max_norm_ ba)%sc
  else true.

(** The lock flag, the frozen H and scale, and the counter of
    consecutive low-error frames. *)
Record LockState : Type := mkLockState {
  ls_locked : bool;
  ls_H : Types.Matx33d T;
  ls_scale : T;
  ls_frames_stable : Z
}.

(** Modelled from the spec: step 7 of [TrackedBA::processFrame], the
    locking hysteresis, run after the gate has settled the accepted H and
    scale of the frame.  While unlocked a frame with mean error below
    [lock_error_threshold_] advances the counter and any other frame
    clears it; when the counter reaches [frames_needed_for_lock_] the
    accepted H and scale are frozen.  While locked only a mean error
    above [unlock_error_threshold_] unlocks.  With locking disabled
    nothing changes. *)
Definition lock_step (ba : TrackedBA) (mean_error : T)
    (accepted_H : Types.Matx33d T) (accepted_scale : T) : LockState :=
  let keep := fun locked frames_stable =>
    mkLockState locked (locked_H_ ba) (locked_scale_ ba) frames_stable in
  if negb (locking_enabled_ ba) then
    keep (homography_locked_ ba) (frames_stable_ ba)
  else if homography_locked_ ba then
    if (unlock_error_threshold_ ba <? mean_error)%sc
    then keep false 0%Z
    else keep true (frames_stable_ ba)
  else if (mean_error <? lock_error_threshold_ ba)%sc then
    let frames_stable := (frames_stable_ ba + 1)%Z in
    if (frames_needed_for_lock_ ba <=? frames_stable)%Z
    then mkLockState true accepted_H accepted_scale frames_stable
    else keep false frames_stable
  else keep false 0%Z.

(** Modelled from the spec: steps 5, 7 and 8 of
    [TrackedBA::processFrame], declared in TrackedBA.h, given what steps
    1 to 4 hand over for the frame: the optimizer's candidate solution
    and its mean piece error.  (The filter update of step 6 reads the
    gated solution and writes only the filter.)  While the homography is
    locked the frame keeps the frozen H and scale; otherwise the gate
    decides between the candidate's H and scale and the accepted ones.
    The poses, errors and correspondences are the candidate's. *)
Definition processFrame (ba : TrackedBA) (candidate : Types.BASolution T)
    (mean_error : T) : TrackedBA * Types.BASolution T :=
  let frozen := locking_enabled_ ba && homography_locked_ ba in
  let accept := negb frozen && gate_passes ba candidate mean_error in
  let accepted_H :=
    if accept then Types.H candidate else accepted_H_ ba in
  let accepted_scale :=
    if accept then Types.scale candidate else accepted_scale_ ba in
  let out_H := if frozen then locked_H_ ba else accepted_H in
  let out_scale := if frozen then locked_scale_ ba else accepted_scale in
  let ls := lock_step ba mean_error accepted_H accepted_scale in
  (with_state ba mean_error accepted_H accepted_scale
     (ls_locked ls) (ls_H ls) (ls_scale ls) (ls_frames_stable ls),
   {| Types.H := out_H;
      Types.scale := out_scale;
      Types.poses := Types.poses candidate;
      Types.errors := Types.errors candidate;
      Types.correspondences := Types.correspondences candidate;
      Types.trackingQuality := Types.trackingQuality candidate;
      Types.homographyLocked := locking_enabled_ ba && ls_locked ls;
      Types.timings := Types.timings candidate |}).

(** A run of frames, each given as the candidate and its mean error. *)
Fixpoint run_frames (ba : TrackedBA)
    (frames : list (Types.BASolution T * T)) : TrackedBA :=
  match frames with
  | [] => ba
  | (candidate, mean_error) :: rest =>
      run_frames (fst (processFrame ba candidate mean_error)) rest
  end.

End Orchestrator.
Arguments TrackedBA T : clear implicits.
Arguments LockState T : clear implicits.

(** ** The orchestrator over the reals *)

(** The configuration the header gives: 5 frames to lock, lock below
    5.0, unlock above 15.0, gate at 0.05 and 0.10. *)
Definition header_thresholds (ba : TrackedBA R) : Prop :=
  frames_needed_for_lock_ ba = 5%Z
  /\ lock_error_threshold_ ba = 5%R
  /\ unlock_error_threshold_ ba = 15%R
  /\ h_update_min_improvement_ ba = 0.05%R
  /\ h_update_max_norm_ ba = 0.10%R.

(** A candidate solution with the given homography and scale and one
    piece. *)
Definition candidate_with (H : Types.Matx33d R) (scale : R)
    : Types.BASolution R :=
  {| Types.H := H; Types.scale := scale;
     Types.poses := {[ 0%Z := Types.mkPose 0%R 0%R 0%R ]};
     Types.errors := {[ 0%Z := 3%R ]};
     Types.correspondences := {[ 0%Z := Types.mkCorrespondence 0 false false ]};
     Types.trackingQuality := 1%R;
     Types.homographyLocked := false;
     Types.timings := ∅ |}.

Definition Matx33d_identity : Types.Matx33d R :=
  (Types.mkMatx33d 1 0 0 0 1 0 0 0 1)%R.

(** The identity with its translation column set to (40, 30). *)
Definition Matx33d_shifted : Types.Matx33d R :=
  (Types.mkMatx33d 1 0 40 0 1 30 0 0 1)%R.

(** A fresh orchestrator with locking switched off, after one frame of
    mean error 3. *)
Definition ungated_after_one_frame : TrackedBA R :=
  fst (processFrame (setLockingEnabled TrackedBA_new false)
         (candidate_with Matx33d_identity 1%R) 3%R).

(** Five frames of mean error 3, the last with another homography. *)
Definition five_steady_frames : list (Types.BASolution R * R) :=
  [(candidate_with Matx33d_identity 1%R, 3%R);
   (candidate_with Matx33d_identity 1%R, 3%R);
   (candidate_with Matx33d_identity 1%R, 3%R);
   (candidate_with Matx33d_identity 1%R, 3%R);
   (candidate_with Matx33d_shifted 1%R, 3%R)].

(** An orchestrator that has accepted the identity at mean error 3. *)
Definition steady_orchestrator : TrackedBA R :=
  with_state TrackedBA_new 3%R Matx33d_identity 1%R false
    Matx33d_zero 1%R 0%Z.

(** The same objects at [T = double]. *)
Definition candidate_double (H : Types.Matx33d float) (scale : float)
    : Types.BASolution float :=
  {| Types.H := H; Types.scale := scale;
     Types.poses := {[ 0%Z := Types.mkPose 0%float 0%float 0%float ]};
     Types.errors := {[ 0%Z := 3%float ]};
     Types.correspondences := {[ 0%Z := Types.mkCorrespondence 0 false false ]};
     Types.trackingQuality := 1%float;
     Types.homographyLocked := false;
     Types.timings := ∅ |}.

Definition steady_orchestrator_double : TrackedBA float :=
  with_state TrackedBA_new 3%float
    (Types.mkMatx33d 1 0 0 0 1 0 0 0 1)%float 1%float false
    Matx33d_zero 1%float 0%Z.

Definition steady_frame_double : Types.BASolution float * float :=
  (candidate_double (Types.mkMatx33d 1 0 0 0 1 0 0 0 1)%float 1%float,
   3%float).


(* ===================================================================== *)
(** * CostFunctions.h: HPriorCostFunctor and ScalePriorCostFunctor        *)
(* ===================================================================== *)

Section PriorCosts.
Context {T : Type} {ST : Scalar T}.

(** [double h_prior_[8]] and [lambda_h_sqrt_]. *)
Record HPriorCostFunctor : Type := {
  h_prior_ : list T;
  lambda_h_sqrt_ : T
}.

(** The constructor: [std::copy(h_prior, h_prior + 8, h_prior_)] and
    [lambda_h_sqrt_(std::sqrt(lambda_h))]. *)
Definition mkHPriorCostFunctor (h_prior : block T) (lambda_h : T)
    : HPriorCostFunctor :=
  {| h_prior_ := map h_prior (seq 0 8);
     lambda_h_sqrt_ := s_sqrt lambda_h |}.

(** [for (int i = i0; i < 8; ++i) residuals[i] = ...], with
    [todo = 8 - i0] iterations left. *)
Fixpoint h_prior_loop (P : HPriorCostFunctor) (h_params : block T)
    (i todo : nat) (residuals : block T) : outcome (block T) :=
  match todo with
  | O => Done residuals
  | S todo' =>
      p ← at_index (h_prior_ P) i;
      let residuals :=
        store residuals i (lambda_h_sqrt_ P * (h_params i - p))%sc in
      h_prior_loop P h_params (S i) todo' residuals
  end.

(** [HPriorCostFunctor::operator()]. *)
Definition HPrior_call (P : HPriorCostFunctor) (h_params : block T)
    (residuals : block T) : outcome (bool * block T) :=
  residuals ← h_prior_loop P h_params 0 8 residuals;
  Done (true, residuals).

Record ScalePriorCostFunctor : Type := {
  scale_prior_ : T;
  lambda_s_sqrt_ : T
}.

Definition mkScalePriorCostFunctor (scale_prior lambda_s : T)
    : ScalePriorCostFunctor :=
  {| scale_prior_ := scale_prior; lambda_s_sqrt_ := s_sqrt lambda_s |}.

(** [ScalePriorCostFunctor::operator()]. *)
Definition ScalePrior_call (S : ScalePriorCostFunctor) (scale_param : block T)
    (residuals : block T) : bool * block T :=
  (true,
   store residuals 0 (lambda_s_sqrt_ S * (scale_param 0 - scale_prior_ S))%sc).

End PriorCosts.
Arguments HPriorCostFunctor T : clear implicits.
Arguments ScalePriorCostFunctor T : clear implicits.

(** The sum of the squares of the first [n] entries of a block of
    reals. *)
Definition sum_squares (n : nat) (b : block R) : R :=
  fold_right Rplus 0%R (map (fun i => (b i * b i)%R) (seq 0 n)).

(* ===================================================================== *)
(** * Properties of getCandidateMappings                                  *)
(* ===================================================================== *)

Section CandidateMappings.
Context {A : Type}.
Implicit Types (pts : list A) (cands : list (list A)).

Lemma push_rolled_unfold pts k todo cands :
  push_rolled pts k todo cands
  = cands ++ map (fun j => rotate j pts) (seq k todo).
Proof.
  revert k cands.
  induction todo as [|todo IH]; intros k cands; simpl.
  - now rewrite app_nil_r.
  - rewrite IH, <- app_assoc. reflexivity.
Qed.

Lemma length_rotate k pts : length (rotate k pts) = length pts.
Proof.
  unfold rotate.
  rewrite length_app, length_drop, length_take. lia.
Qed.

Lemma length_cyclic_shifts pts : length (cyclic_shifts pts) = length pts.
Proof. unfold cyclic_shifts. now rewrite length_map, length_seq. Qed.

Lemma cyclic_shifts_lengths pts :
  Forall (fun c => length c = length pts) (cyclic_shifts pts).
Proof.
  unfold cyclic_shifts. apply Forall_map, Forall_forall.
  intros k _. apply length_rotate.
Qed.

Lemma wants_reversed_true shape_type n :
  wants_reversed shape_type n = true <-> admits_reflection shape_type n.
Proof.
  unfold wants_reversed, admits_reflection.
  rewrite !orb_true_iff, !String.eqb_eq, !Nat.eqb_eq. tauto.
Qed.

Lemma getCandidateMappings_unfold pts shape_type :
  getCandidateMappings pts shape_type
  = match pts with
    | [] => []
    | _ :: _ =>
        if wants_reversed shape_type (length pts)
        then cyclic_shifts pts ++ cyclic_shifts (rev pts)
        else cyclic_shifts pts
    end.
Proof.
  unfold getCandidateMappings, cyclic_shifts.
  destruct pts as [|p pts]; [reflexivity|].
  rewrite !push_rolled_unfold, length_rev. simpl app at 1.
  destruct (wants_reversed _ _); reflexivity.
Qed.

(** Every candidate is as long as the input. *)
Lemma getCandidateMappings_lengths pts shape_type :
  Forall (fun c => length c = length pts)
         (getCandidateMappings pts shape_type).
Proof.
  rewrite getCandidateMappings_unfold.
  destruct pts as [|p pts]; [constructor|].
  destruct (wants_reversed _ _).
  - apply Forall_app; split; [apply cyclic_shifts_lengths|].
    rewrite <- (length_rev (p :: pts)). apply cyclic_shifts_lengths.
  - apply cyclic_shifts_lengths.
Qed.

Lemma getCandidateMappings_nonempty pts shape_type :
  pts <> [] -> getCandidateMappings pts shape_type <> [].
Proof.
  intros Hne. rewrite getCandidateMappings_unfold.
  destruct pts as [|p pts]; [congruence|].
  destruct (wants_reversed _ _); unfold cyclic_shifts; simpl; discriminate.
Qed.

(** C1: for a non-empty list of [n] points, [getCandidateMappings]
    returns the [n] cyclic shifts of the input followed by the [n]
    cyclic shifts of the reversed input, [2n] candidates in all, when
    the shape type is "triangle", "parallelogram" or "square" or [n] is
    3 or 4; otherwise it returns the [n] cyclic shifts only; for the
    empty input it returns the empty list. *)
Theorem getCandidateMappings_count pts shape_type :
  let n := length pts in
  (pts = [] -> getCandidateMappings pts shape_type = [])
  /\ (pts <> [] -> admits_reflection shape_type n ->
        getCandidateMappings pts shape_type
        = cyclic_shifts pts ++ cyclic_shifts (rev pts)
        /\ length (getCandidateMappings pts shape_type) = 2 * n)
  /\ (pts <> [] -> ~ admits_reflection shape_type n ->
        getCandidateMappings pts shape_type = cyclic_shifts pts
        /\ length (getCandidateMappings pts shape_type) = n).
Proof.
  intros n. subst n. split; [|split].
  - intros ->. reflexivity.
  - intros Hne Hrefl. rewrite getCandidateMappings_unfold.
    destruct pts as [|p pts]; [congruence|].
    apply wants_reversed_true in Hrefl. rewrite Hrefl.
    split; [reflexivity|].
    rewrite length_app, !length_cyclic_shifts, length_rev. lia.
  - intros Hne Hplain. rewrite getCandidateMappings_unfold.
    destruct pts as [|p pts]; [congruence|].
    destruct (wants_reversed _ _) eqn:E.
    + apply wants_reversed_true in E. contradiction.
    + split; [reflexivity | apply length_cyclic_shifts].
Qed.

End CandidateMappings.

(** Five vertices and a shape type outside the three named ones: the five
    cyclic shifts; three vertices: six candidates whatever the type. *)
Lemma getCandidateMappings_count_witness :
  getCandidateMappings [1; 2; 3; 4; 5] "pentagon"
  = [[1; 2; 3; 4; 5]; [2; 3; 4; 5; 1]; [3; 4; 5; 1; 2];
     [4; 5; 1; 2; 3]; [5; 1; 2; 3; 4]]
  /\ length (getCandidateMappings [1; 2; 3] "pentagon") = 6
  /\ getCandidateMappings (@nil nat) "square" = [].
Proof.
  split; [|split].
  - apply (proj2 (proj2 (getCandidateMappings_count [1; 2; 3; 4; 5] "pentagon"))).
    + discriminate.
    + unfold admits_reflection. simpl.
      intros [H|[H|[H|[H|H]]]]; discriminate H.
  - apply (proj1 (proj2 (getCandidateMappings_count [1; 2; 3] "pentagon"))).
    + discriminate.
    + unfold admits_reflection. simpl. tauto.
  - apply (proj1 (getCandidateMappings_count (@nil nat) "square")). reflexivity.
Defined.

(* ===================================================================== *)
(** * The functor over the real numbers                                   *)
(* ===================================================================== *)

Section RealComparisons.
Local Open Scope R_scope.

Lemma Rltb_true x y : Rltb x y = true <-> x < y.
Proof. unfold Rltb. destruct (Rlt_dec x y); split; (congruence || tauto). Qed.

Lemma Rltb_false x y : Rltb x y = false <-> y <= x.
Proof. unfold Rltb. destruct (Rlt_dec x y); split; (congruence || lra). Qed.

Lemma Rleb_true x y : Rleb x y = true <-> x <= y.
Proof. unfold Rleb. destruct (Rle_dec x y); split; (congruence || tauto). Qed.

Lemma Rleb_false x y : Rleb x y = false <-> y < x.
Proof. unfold Rleb. destruct (Rle_dec x y); split; (congruence || lra). Qed.

Lemma Reqb_true x y : Reqb x y = true <-> x = y.
Proof. unfold Reqb. destruct (Req_dec_T x y); split; (congruence || tauto). Qed.

Lemma Reqb_false x y : Reqb x y = false <-> x <> y.
Proof. unfold Reqb. destruct (Req_dec_T x y); split; (congruence || tauto). Qed.

Lemma checked_div_nonzero (a b : R) :
  b <> 0 -> checked_div a b = Done (a / b).
Proof.
  intros Hb. unfold checked_div. cbn.
  apply Reqb_false in Hb. now rewrite Hb.
Qed.

Lemma checked_div_zero (a : R) :
  checked_div a 0 = Undefined DivisionByZero.
Proof.
  unfold checked_div. cbn.
  now rewrite (proj2 (Reqb_true 0 0) eq_refl).
Qed.

Lemma DBL_MAX_pos : 0 < DBL_MAX.
Proof. unfold DBL_MAX, DBL_MAX_Z. lra. Qed.

End RealComparisons.

Section HuberCost.
Local Open Scope R_scope.

Lemma huber_below (s2 : R) : s2 <= 1 -> huber s2 = s2.
Proof.
  intros Hs. unfold huber. cbn.
  now rewrite (proj2 (Rleb_true s2 1) Hs).
Qed.

Lemma huber_above (s2 : R) : s2 > 1 -> huber s2 = 2 * sqrt s2 - 1.
Proof.
  intros Hs. unfold huber. cbn.
  now rewrite (proj2 (Rleb_false s2 1) Hs).
Qed.

Lemma huber_branches_meet : 2 * sqrt 1 - 1 = 1.
Proof. rewrite sqrt_1. lra. Qed.

Lemma huber_continuous_at_1 : continuity_pt (huber (T := R)) 1.
Proof.
  intros eps Heps.
  destruct (sqrt_continuity_pt_R1 (eps / 2)) as (d & Hd & Hsqrt); [lra|].
  exists (Rmin d eps). split; [apply Rmin_pos; lra|].
  intros x [[_ Hne] Hdist]. simpl in Hdist, Hsqrt |- *.
  unfold R_dist in *.
  rewrite (huber_below 1) by lra.
  destruct (Rle_dec x 1) as [Hle|Hgt].
  - rewrite huber_below by lra.
    eapply Rlt_le_trans; [exact Hdist | apply Rmin_r].
  - rewrite huber_above by lra.
    assert (Hs : Rabs (sqrt x - sqrt 1) < eps / 2).
    { apply Hsqrt. split; [split; [exact I | exact Hne]|].
      eapply Rlt_le_trans; [exact Hdist | apply Rmin_l]. }
    rewrite sqrt_1 in Hs.
    replace (2 * sqrt x - 1 - 1) with (2 * (sqrt x - 1)) by lra.
    rewrite Rabs_mult, (Rabs_pos_eq 2) by lra. lra.
Qed.

Lemma huber_nonneg (s2 : R) : 0 <= s2 -> 0 <= huber s2.
Proof.
  intros Hs. destruct (Rle_dec s2 1) as [Hle|Hgt].
  - now rewrite huber_below.
  - rewrite huber_above by lra.
    assert (1 <= sqrt s2); [|lra].
    rewrite <- sqrt_1. apply sqrt_le_1_alt. lra.
Qed.

(** C2: the per-term robust cost returns [s2] when [s2 <= 1] and
    [2 * sqrt s2 - 1] when [s2 > 1]; the two formulas agree at
    [s2 = 1], and the function is continuous there. *)
Theorem huber_piecewise :
  (forall s2 : R, s2 <= 1 -> huber s2 = s2)
  /\ (forall s2 : R, s2 > 1 -> huber s2 = 2 * sqrt s2 - 1)
  /\ (huber 1 = 1 /\ 2 * sqrt 1 - 1 = 1)
  /\ continuity_pt (huber (T := R)) 1.
Proof.
  split; [exact huber_below|].
  split; [exact huber_above|].
  split; [split; [apply huber_below; lra | exact huber_branches_meet]|].
  exact huber_continuous_at_1.
Qed.

End HuberCost.

(** At [s2 = 1/4] the cost is [1/4]; at [s2 = 4] it is [2 * 2 - 1 = 3]. *)
Lemma huber_piecewise_witness :
  huber (/ 4)%R = (/ 4)%R /\ huber 4%R = 3%R.
Proof.
  split.
  - apply (proj1 huber_piecewise). lra.
  - rewrite (proj1 (proj2 huber_piecewise)) by lra.
    replace 4%R with (2 * 2)%R by lra.
    rewrite sqrt_square by lra. lra.
Defined.

(** The same lambda at [T = double]. *)
Example huber_double_values :
  huber 0.25%float = 0.25%float /\ huber 1%float = 1%float
  /\ huber 4%float = 3%float
  /\ PrimFloat.sub (PrimFloat.mul 2 (PrimFloat.sqrt 1)) 1 = 1%float.
Proof. repeat split; vm_compute; reflexivity. Qed.

(* ===================================================================== *)
(** * The perspective division                                            *)
(* ===================================================================== *)

Section Projection.
Local Open Scope R_scope.
Implicit Types (H_params : block R) (p_model pl : Point R) (w : R).

Lemma clamp_w_real w :
  clamp_w w = if Rltb (Rabs w) 1e-8 then 1e-8 else w.
Proof. reflexivity. Qed.

Lemma clamp_w_small w : Rabs w < 1e-8 -> clamp_w w = 1e-8.
Proof.
  intros Hw. rewrite clamp_w_real.
  now rewrite (proj2 (Rltb_true _ _) Hw).
Qed.

Lemma clamp_w_large w : 1e-8 <= Rabs w -> clamp_w w = w.
Proof.
  intros Hw. rewrite clamp_w_real.
  now rewrite (proj2 (Rltb_false _ _) Hw).
Qed.

Lemma clamp_w_bound w : 1e-8 <= Rabs (clamp_w w).
Proof.
  destruct (Rlt_dec (Rabs w) 1e-8) as [Hs|Hl].
  - rewrite clamp_w_small by assumption. rewrite Rabs_pos_eq; lra.
  - rewrite clamp_w_large; lra.
Qed.

Lemma clamp_w_nonzero w : clamp_w w <> 0.
Proof.
  intros Hz. pose proof (clamp_w_bound w) as Hb.
  rewrite Hz, Rabs_R0 in Hb. lra.
Qed.

Lemma project_point_done H_params scale cos_theta sin_theta tx ty p_model :
  project_point H_params scale cos_theta sin_theta tx ty p_model
  = Done (projected_point H_params scale cos_theta sin_theta tx ty p_model).
Proof.
  unfold project_point, projected_point.
  rewrite !checked_div_nonzero by apply clamp_w_nonzero.
  reflexivity.
Qed.

Lemma project_model_points_done H_params scale cos_theta sin_theta tx ty
    (model : list (Point R)) :
  project_model_points H_params scale cos_theta sin_theta tx ty model
  = Done (map (projected_point H_params scale cos_theta sin_theta tx ty)
              model).
Proof.
  induction model as [|p_model rest IH]; [reflexivity|].
  cbn [project_model_points]. rewrite project_point_done, IH. reflexivity.
Qed.

Lemma Rsign_pos x : 0 < x -> Rsign x = 1%Z.
Proof. intros Hx. unfold Rsign. destruct (Rlt_dec 0 x); [reflexivity|lra]. Qed.

Lemma Rsign_neg x : x < 0 -> Rsign x = (-1)%Z.
Proof.
  intros Hx. unfold Rsign.
  destruct (Rlt_dec 0 x); [lra|]. destruct (Rlt_dec x 0); [reflexivity|lra].
Qed.

Lemma Rsign_zero : Rsign 0 = 0%Z.
Proof.
  unfold Rsign.
  destruct (Rlt_dec 0 0); [lra|]. destruct (Rlt_dec 0 0); [lra|reflexivity].
Qed.

(** Dividing by a positive and by a negative number gives opposite
    signs. *)
Lemma Rsign_div_opposite (num e w : R) :
  0 < e -> w < 0 -> Rsign (num / e) = (- Rsign (num / w))%Z.
Proof.
  intros He Hw.
  pose proof (Rinv_0_lt_compat e He) as Hie.
  pose proof (Rinv_lt_0_compat w Hw) as Hiw.
  unfold Rdiv.
  destruct (Rtotal_order num 0) as [Hn|[Hn|Hn]].
  - rewrite (Rsign_neg (num * / e)), (Rsign_pos (num * / w)) by nra.
    reflexivity.
  - subst num. rewrite !Rmult_0_l, Rsign_zero. reflexivity.
  - rewrite (Rsign_pos (num * / e)), (Rsign_neg (num * / w)) by nra.
    reflexivity.
Qed.

(** C10: when the denominator [w] has [|w| < 1e-8] it is replaced by
    [+1e-8] whatever its sign; for a small negative [w] the divisor used
    is positive, so each projected coordinate has the opposite sign of
    the quotient by [w] itself: the magnitude of the divisor is bounded
    below, its sign is not kept. *)
Theorem clamp_discards_sign :
  forall H_params scale cos_theta sin_theta tx ty p_model,
    let pl := plane_point scale cos_theta sin_theta tx ty p_model in
    let w := perspective_w H_params pl in
    (Rabs w < 1e-8 -> clamp_w w = 1e-8)
    /\ (- 1e-8 < w < 0 ->
          0 < clamp_w w
          /\ 1e-8 <= Rabs (clamp_w w)
          /\ project_point H_params scale cos_theta sin_theta tx ty p_model
             = Done (mkPoint (numerator_x H_params pl / 1e-8)
                             (numerator_y H_params pl / 1e-8))
          /\ Rsign (numerator_x H_params pl / 1e-8)
             = (- Rsign (numerator_x H_params pl / w))%Z
          /\ Rsign (numerator_y H_params pl / 1e-8)
             = (- Rsign (numerator_y H_params pl / w))%Z).
Proof.
  intros H_params scale cos_theta sin_theta tx ty p_model pl w.
  split; [apply clamp_w_small|].
  intros [Hlo Hhi].
  assert (Hsmall : Rabs w < 1e-8) by (apply Rabs_def1; lra).
  pose proof (clamp_w_small w Hsmall) as Hc.
  split; [rewrite Hc; lra|].
  split; [apply clamp_w_bound|].
  split.
  - rewrite project_point_done. unfold projected_point.
    fold pl. fold w. rewrite Hc. reflexivity.
  - split; apply Rsign_div_opposite; lra.
Qed.

End Projection.

(* ===================================================================== *)
(** * Writing the residual block                                          *)
(* ===================================================================== *)

Section ResidualBlock.
Context {T : Type} {ST : Scalar T}.
Implicit Types (residuals : block T) (F : ReprojectionCostFunctor T).

Lemma bind_done {A B : Type} (a : A) (k : A -> outcome B) :
  (x ← Done a; k x) = k a.
Proof. reflexivity. Qed.

Lemma at_index_some {A : Type} (v : list A) i a :
  v !! i = Some a -> at_index v i = Done a.
Proof. intros Hv. unfold at_index. now rewrite Hv. Qed.

Lemma at_index_done {A : Type} (v : list A) i a :
  at_index v i = Done a -> v !! i = Some a.
Proof. unfold at_index. destruct (v !! i); congruence. Qed.

Lemma store_same residuals i v : store residuals i v i = v.
Proof. unfold store. now rewrite Nat.eqb_refl. Qed.

Lemma store_other residuals i v k :
  k <> i -> store residuals i v k = residuals k.
Proof.
  intros Hk. unfold store.
  destruct (Nat.eqb_spec k i); [contradiction | reflexivity].
Qed.

(** The [else] branch zeroes slots [2i .. 2(i+todo)-1] and no other. *)
Lemma write_zeros_slots todo : forall i residuals k,
  write_zeros i todo residuals k
  = if (2 * i <=? k) && (k <? 2 * (i + todo)) then s_zero else residuals k.
Proof.
  induction todo as [|todo IH]; intros i residuals k; cbn [write_zeros].
  - destruct (Nat.leb_spec (2 * i) k), (Nat.ltb_spec k (2 * (i + 0)));
      try reflexivity; lia.
  - rewrite IH. unfold store.
    destruct (Nat.leb_spec (2 * S i) k), (Nat.ltb_spec k (2 * (S i + todo))),
      (Nat.leb_spec (2 * i) k), (Nat.ltb_spec k (2 * (i + S todo))),
      (Nat.eqb_spec k (2 * i + 1)), (Nat.eqb_spec k (2 * i));
      cbn [andb]; try reflexivity; lia.
Qed.

(** The [if] branch writes the weighted deltas of the chosen candidate,
    two slots per projected vertex, and touches no other slot. *)
Lemma write_residuals_slots F (best : list (Point T)) :
  forall (projected : list (Point T)) i residuals,
    i + length projected <= length best ->
    exists residuals',
      write_residuals F projected best i residuals = Done residuals'
      /\ (forall j q d,
            projected !! j = Some q -> best !! (i + j) = Some d ->
            residuals' (2 * (i + j))
            = (weight_sqrt_ F * (pt_x q - pt_x d))%sc
            /\ residuals' (2 * (i + j) + 1)
               = (weight_sqrt_ F * (pt_y q - pt_y d))%sc)
      /\ (forall k, k < 2 * i \/ 2 * (i + length projected) <= k ->
            residuals' k = residuals k).
Proof.
  induction projected as [|q rest IH]; intros i residuals Hlen.
  - exists residuals. split; [reflexivity|]. split; [|reflexivity].
    intros j q d Hq. discriminate Hq.
  - cbn [length] in Hlen. cbn [write_residuals].
    destruct (lookup_lt_is_Some_2 best i) as [d Hd]; [lia|].
    rewrite (at_index_some _ _ _ Hd), !bind_done.
    edestruct (IH (S i)) as (residuals' & Hrun & Hval & Hframe); [lia|].
    exists residuals'. split; [exact Hrun|]. split.
    + intros [|j] q' d' Hq' Hd'.
      * rewrite Nat.add_0_r in *. cbn in Hq'.
        assert (q' = q) by congruence. assert (d' = d) by congruence.
        subst q' d'. rewrite !Hframe by lia.
        rewrite store_same, store_other, store_same by lia. tauto.
      * cbn in Hq'. replace (i + S j) with (S i + j) in * by lia.
        now apply Hval.
    + intros k Hk. rewrite Hframe by (cbn [length] in Hk; lia).
      rewrite !store_other by (cbn [length] in Hk; lia). reflexivity.
Qed.

End ResidualBlock.

(* ===================================================================== *)
(** * The correspondence search, for every scalar type                  *)
(* ===================================================================== *)

Section OrderedSearch.
Context {T : Type} {ST : Scalar T}.
Implicit Types (F : ReprojectionCostFunctor T).
Implicit Types (projected cand : list (Point T)).

(** The cost loop stays within defined behaviour exactly when it has
    nothing to visit, or [f_scale_] does not compare equal to zero and
    the candidate has a vertex for every index visited. *)
Lemma cost_loop_defined F projected cand :
  forall i cost,
    (exists c, candidate_cost_from F projected cand i cost = Done c)
    <-> (projected = []
         \/ (s_eqb (f_scale_ F) s_zero = false
             /\ i + length projected <= length cand)).
Proof.
  induction projected as [|q rest IH]; intros i cost.
  - split; [now left | intros _; now exists cost].
  - cbn [candidate_cost_from length]. unfold checked_div. split.
    + intros [c Hc]. right.
      destruct (at_index cand i) as [d|] eqn:Hd; [|discriminate Hc].
      apply at_index_done, lookup_lt_Some in Hd.
      rewrite bind_done in Hc.
      destruct (s_eqb (f_scale_ F) s_zero); [discriminate Hc|].
      rewrite !bind_done in Hc.
      destruct (proj1 (IH _ _) (ex_intro _ c Hc)) as [->|[_ Hlen]];
        cbn [length] in *; split; (reflexivity || lia).
    + intros [Hnil|[Hnz Hlen]]; [discriminate Hnil|].
      destruct (lookup_lt_is_Some_2 cand i) as [d Hd]; [lia|].
      rewrite (at_index_some _ _ _ Hd), bind_done.
      rewrite Hnz, !bind_done.
      apply IH. destruct rest; [now left|right].
      split; [assumption | cbn [length] in *; lia].
Qed.

(** The search returns as soon as every candidate's cost is defined. *)
Lemma search_from_done F projected :
  forall (cands : list (list (Point T))) c_idx min_cost best,
    Forall (fun cand => exists c, candidate_cost F projected cand = Done c)
      cands ->
    exists r, search_from F projected cands c_idx min_cost best = Done r.
Proof.
  induction cands as [|cand rest IH]; intros c_idx min_cost best Hdef.
  - eexists. reflexivity.
  - apply Forall_cons in Hdef as [[c Hc] Hrest].
    cbn [search_from]. rewrite Hc, bind_done.
    destruct (s_ltb c min_cost); apply IH; exact Hrest.
Qed.

(** The comparison [<] of the scalar type as a strict partial order:
    nothing more is asked of it, so values that compare with nothing (a
    NaN) are covered. *)
Hypothesis s_ltb_irrefl : forall x : T, (x <? x)%sc = false.
Hypothesis s_ltb_trans : forall x y z : T,
  (x <? y)%sc = true -> (y <? z)%sc = true -> (x <? z)%sc = true.

Lemma s_ltb_asym (x y : T) : (x <? y)%sc = true -> (y <? x)%sc = false.
Proof.
  intros Hxy. destruct (y <? x)%sc eqn:Hyx; [|reflexivity].
  rewrite <- (s_ltb_irrefl x). symmetry. eapply s_ltb_trans; eassumption.
Qed.

Lemma s_ltb_below (x y z : T) :
  (x <? y)%sc = true -> (z <? y)%sc = false -> (z <? x)%sc = false.
Proof.
  intros Hxy Hzy. destruct (z <? x)%sc eqn:Hzx; [|reflexivity].
  rewrite <- Hzy. symmetry. eapply s_ltb_trans; eassumption.
Qed.

(** What the search loop returns: either no cost compared below the
    incoming [min_cost] and the incoming index is kept, or the index of
    a candidate whose cost compares below [min_cost], below which no
    candidate's cost compares, and which no earlier candidate's cost
    equals. *)
Lemma search_from_least F projected :
  forall (cands : list (list (Point T))) c_idx min_cost best m' b',
    search_from F projected cands c_idx min_cost best = Done (m', b') ->
    (b' = best /\ m' = min_cost
     /\ Forall (fun cand => forall c,
           candidate_cost F projected cand = Done c ->
           (c <? min_cost)%sc = false) cands)
    \/ (exists j cand,
          cands !! j = Some cand
          /\ b' = Z.of_nat (c_idx + j)
          /\ candidate_cost F projected cand = Done m'
          /\ (m' <? min_cost)%sc = true
          /\ Forall (fun cand' => forall c,
                candidate_cost F projected cand' = Done c ->
                (c <? m')%sc = false) cands
          /\ (forall k cand' c, k < j -> cands !! k = Some cand' ->
                candidate_cost F projected cand' = Done c -> c <> m')).
Proof.
  induction cands as [|cand rest IH]; intros c_idx min_cost best m' b' Hrun.
  - cbn in Hrun. left. split; [congruence|]. split; [congruence|]. constructor.
  - cbn [search_from] in Hrun.
    destruct (candidate_cost F projected cand) as [c|] eqn:Hc;
      [|discriminate Hrun].
    rewrite bind_done in Hrun.
    destruct (c <? min_cost)%sc eqn:Hlt.
    + destruct (IH _ _ _ _ _ Hrun)
        as [(-> & -> & Hall)
           |(j & cand' & Hj & -> & Hcj & Hlt' & Hall & Hfirst)].
      * right. exists 0, cand. rewrite Nat.add_0_r.
        repeat split; try assumption; try reflexivity.
        -- apply Forall_cons. split; [|exact Hall].
           intros c' Hc'. assert (c' = c) by congruence. subst c'.
           apply s_ltb_irrefl.
        -- intros k cand' c' Hk. lia.
      * right. exists (S j), cand'.
        replace (c_idx + S j) with (S c_idx + j) by lia.
        repeat split; try assumption; try reflexivity.
        -- eapply s_ltb_trans; eassumption.
        -- apply Forall_cons. split; [|exact Hall].
           intros c' Hc'. assert (c' = c) by congruence. subst c'.
           apply s_ltb_asym. exact Hlt'.
        -- intros [|k] cand'' c' Hk Hk' Hc'.
           ++ cbn in Hk'. assert (cand'' = cand) by congruence. subst cand''.
              assert (c' = c) by congruence. subst c'. intros ->.
              rewrite s_ltb_irrefl in Hlt'. discriminate Hlt'.
           ++ cbn in Hk'. eapply Hfirst; eauto. lia.
    + destruct (IH _ _ _ _ _ Hrun)
        as [(-> & -> & Hall)
           |(j & cand' & Hj & -> & Hcj & Hlt' & Hall & Hfirst)].
      * left. repeat split; try reflexivity.
        apply Forall_cons. split; [|exact Hall].
        intros c' Hc'. assert (c' = c) by congruence. subst c'. exact Hlt.
      * right. exists (S j), cand'.
        replace (c_idx + S j) with (S c_idx + j) by lia.
        repeat split; try assumption; try reflexivity.
        -- apply Forall_cons. split; [|exact Hall].
           intros c' Hc'. assert (c' = c) by congruence. subst c'.
           eapply s_ltb_below; eassumption.
        -- intros [|k] cand'' c' Hk Hk' Hc'.
           ++ cbn in Hk'. assert (cand'' = cand) by congruence. subst cand''.
              assert (c' = c) by congruence. subst c'. intros ->.
              rewrite Hlt' in Hlt. discriminate Hlt.
           ++ cbn in Hk'. eapply Hfirst; eauto. lia.
Qed.

(** C3 (as amended): for every scalar type whose [<] is irreflexive and
    transitive (binary64 with its infinities and NaN is one, the reals
    another), whenever the projection of the model is defined and at
    least one candidate ordering has a robust cost that, as the scalar
    type computes it, compares below the initial bound
    [numeric_limits<double>::max()], the evaluation returns [true] and
    the residual block holds, for the candidate the search took, the
    plain weighted deltas [weight_sqrt_ * (projected - detected)] in x
    and y, two slots per projected vertex.  That candidate's cost
    compares below the bound, no candidate's cost compares below it, and
    no earlier candidate has the same cost; the Huber shaping enters the
    costs only, and no slot at or beyond [2 * |projected|] is written.
    [operator()] is [operator_body] at the cosine and sine of
    [pose_params[0]]. *)
Theorem residuals_of_least_cost_candidate :
  forall F (H_params : block T) (scale cos_theta sin_theta tx ty : T)
         (residuals : block T) projected,
    let candidates :=
      getCandidateMappings (detected_points_ F) (shape_type_ F) in
    project_model_points H_params scale cos_theta sin_theta tx ty
      (model_points_ F) = Done projected ->
    (exists cand c,
        cand ∈ candidates
        /\ candidate_cost F projected cand = Done c
        /\ (c <? s_max)%sc = true) ->
    exists j best c_best residuals',
      candidates !! j = Some best
      /\ candidate_cost F projected best = Done c_best
      /\ (c_best <? s_max)%sc = true
      /\ (forall cand c, cand ∈ candidates ->
            candidate_cost F projected cand = Done c ->
            (c <? c_best)%sc = false)
      /\ (forall k cand c, k < j -> candidates !! k = Some cand ->
            candidate_cost F projected cand = Done c -> c <> c_best)
      /\ operator_body F H_params scale cos_theta sin_theta tx ty residuals
         = Done (true, residuals')
      /\ length projected <= length best
      /\ (forall i q d, projected !! i = Some q -> best !! i = Some d ->
            residuals' (2 * i) = (weight_sqrt_ F * (pt_x q - pt_x d))%sc
            /\ residuals' (2 * i + 1)
               = (weight_sqrt_ F * (pt_y q - pt_y d))%sc)
      /\ (forall k, 2 * length projected <= k -> residuals' k = residuals k).
Proof.
  intros F H_params scale cos_theta sin_theta tx ty residuals projected
    candidates Hproj (cand & c & Hin & Hc & Hlt).
  assert (Hdef : Forall (fun cand' =>
                   exists c', candidate_cost F projected cand' = Done c')
                   candidates).
  { pose proof (getCandidateMappings_lengths (detected_points_ F)
                  (shape_type_ F)) as Hlens.
    fold candidates in Hlens.
    assert (Hn : length cand = length (detected_points_ F)).
    { rewrite Forall_forall in Hlens. now apply Hlens. }
    apply (fun H => proj1 (cost_loop_defined _ _ _ _ _) (ex_intro _ c H))
      in Hc as Hc'.
    eapply Forall_impl; [exact Hlens|].
    intros cand' Hn'. apply cost_loop_defined.
    destruct Hc' as [Hc'|Hc']; [now left|right].
    rewrite Hn'. now rewrite Hn in Hc'. }
  destruct (search_from_done F projected candidates 0 s_max (-1)%Z Hdef)
    as [[m' b'] Hrun].
  unfold operator_body. rewrite Hproj, bind_done.
  unfold correspond_and_fill. fold candidates. rewrite Hrun, bind_done.
  cbn [snd].
  destruct (search_from_least F projected candidates _ _ _ _ _ Hrun)
    as [(_ & _ & Hall)
       |(j & best & Hj & -> & Hbest & Hlt' & Hall & Hfirst)].
  - rewrite Forall_forall in Hall. rewrite (Hall cand Hin c Hc) in Hlt.
    discriminate Hlt.
  - assert (Hlen : length projected <= length best).
    { destruct (proj1 (cost_loop_defined F projected best 0 s_zero)
                  (ex_intro _ m' Hbest)) as [->|[_ Hlen]];
        [cbn; lia | exact Hlen]. }
    destruct (write_residuals_slots F best projected 0 residuals Hlen)
      as (residuals' & Hwrite & Hval & Hframe).
    exists j, best, m', residuals'.
    rewrite Forall_forall in Hall.
    replace (Z.of_nat (0 + j) =? -1)%Z with false
      by (symmetry; apply Z.eqb_neq; lia).
    cbn [negb]. rewrite Nat2Z.id. cbn [Nat.add].
    rewrite (at_index_some _ _ _ Hj), bind_done, Hwrite, bind_done.
    split; [exact Hj|]. split; [exact Hbest|]. split; [exact Hlt'|].
    split; [intros cand' c' Hin' Hc'; exact (Hall cand' Hin' c' Hc')|].
    split; [exact Hfirst|]. split; [reflexivity|].
    split; [exact Hlen|].
    split; [exact Hval | intros k Hk; apply Hframe; lia].
Qed.

End OrderedSearch.

Section BinaryOrder.
Import FloatAxioms SpecFloat.

(** The comparison of binary64 values is a strict partial order; a NaN
    compares with nothing. *)
Lemma SFltb_irrefl (x : spec_float) : SFltb x x = false.
Proof.
  unfold SFltb, SFcompare.
  destruct x as [[|]|[|]| |[|] m e]; try reflexivity.
  - rewrite Z.compare_refl, Pos.compare_cont_refl. reflexivity.
  - rewrite Z.compare_refl, Pos.compare_cont_refl. reflexivity.
Qed.

Lemma SFltb_trans (x y z : spec_float) :
  SFltb x y = true -> SFltb y z = true -> SFltb x z = true.
Proof.
  unfold SFltb, SFcompare.
  destruct x as [[|]|[|]| |[|] m1 e1], y as [[|]|[|]| |[|] m2 e2],
           z as [[|]|[|]| |[|] m3 e3];
    try reflexivity; try discriminate; intros Hxy Hyz.
  all: fold (Pos.compare m1 m2) in *; fold (Pos.compare m2 m3) in *;
    fold (Pos.compare m1 m3) in *.
  all: destruct (Z.compare_spec e1 e2), (Z.compare_spec e2 e3),
    (Z.compare_spec e1 e3);
    try discriminate; try reflexivity; try lia; subst.
  all: destruct (Pos.compare_spec m1 m2), (Pos.compare_spec m2 m3),
    (Pos.compare_spec m1 m3);
    try discriminate; try reflexivity; try lia.
  all: cbn in *; discriminate.
Qed.

Lemma float_ltb_irrefl (x : float) : PrimFloat.ltb x x = false.
Proof. rewrite ltb_spec. apply SFltb_irrefl. Qed.

Lemma float_ltb_trans (x y z : float) :
  PrimFloat.ltb x y = true -> PrimFloat.ltb y z = true ->
  PrimFloat.ltb x z = true.
Proof. rewrite !ltb_spec. apply SFltb_trans. Qed.

End BinaryOrder.

(* ===================================================================== *)
(** * The correspondence search                                           *)
(* ===================================================================== *)

Section CorrespondenceSearch.
Local Open Scope R_scope.
Variable F : ReprojectionCostFunctor R.
Implicit Types (projected cand : list (Point R)) (cost : R).

(** The cost loop stays within defined behaviour exactly when it has
    nothing to visit, or [f_scale_] is non-zero and the candidate has a
    vertex for every index visited. *)
Lemma candidate_cost_from_defined projected cand :
  forall i cost,
    (exists c, candidate_cost_from F projected cand i cost = Done c)
    <-> (projected = []
         \/ (f_scale_ F <> 0 /\ (i + length projected <= length cand)%nat)).
Proof.
  induction projected as [|q rest IH]; intros i cost.
  - split; [now left | intros _; now exists cost].
  - cbn [candidate_cost_from length]. split.
    + intros [c Hc]. right.
      destruct (at_index cand i) as [d|] eqn:Hd; [|discriminate Hc].
      apply at_index_done, lookup_lt_Some in Hd.
      rewrite bind_done in Hc.
      destruct (Req_dec_T (f_scale_ F) 0) as [Hz|Hnz].
      { rewrite Hz, !checked_div_zero in Hc. discriminate Hc. }
      rewrite !checked_div_nonzero, !bind_done in Hc by assumption.
      destruct (proj1 (IH _ _) (ex_intro _ c Hc)) as [->|[_ Hlen]];
        cbn [length] in *; split; (assumption || lia).
    + intros [Hnil|[Hnz Hlen]]; [discriminate Hnil|].
      destruct (lookup_lt_is_Some_2 cand i) as [d Hd]; [lia|].
      rewrite (at_index_some _ _ _ Hd), bind_done.
      rewrite !checked_div_nonzero, !bind_done by assumption.
      apply IH. destruct rest; [now left|right].
      split; [assumption | cbn [length] in *; lia].
Qed.

(** Candidates of one length are all defined as soon as one is. *)
Lemma costs_defined_of_one projected (cands : list (list (Point R))) n cand c :
  Forall (fun cand' => length cand' = n) cands ->
  cand ∈ cands -> candidate_cost F projected cand = Done c ->
  costs_defined F projected cands.
Proof.
  intros Hlens Hin Hc.
  assert (Hn : length cand = n).
  { rewrite Forall_forall in Hlens. now apply Hlens. }
  apply (fun H => proj1 (candidate_cost_from_defined _ _ _ _) (ex_intro _ c H))
    in Hc.
  eapply Forall_impl; [exact Hlens|].
  intros cand' Hn'. apply candidate_cost_from_defined.
  destruct Hc as [Hc|Hc]; [now left|right]. rewrite Hn'. now rewrite Hn in Hc.
Qed.

(** What the search loop returns: either nothing beat the incoming
    [min_cost] and the incoming index is kept, or the index of the first
    candidate of least cost. *)
Lemma search_from_result projected :
  forall (cands : list (list (Point R))) c_idx min_cost best,
    costs_defined F projected cands ->
    exists m' b',
      search_from F projected cands c_idx min_cost best = Done (m', b')
      /\ ((b' = best /\ m' = min_cost
           /\ Forall (fun cand => forall c,
                 candidate_cost F projected cand = Done c -> min_cost <= c)
               cands)
          \/ (exists j cand,
                cands !! j = Some cand
                /\ b' = Z.of_nat (c_idx + j)
                /\ candidate_cost F projected cand = Done m'
                /\ m' < min_cost
                /\ Forall (fun cand' => forall c,
                      candidate_cost F projected cand' = Done c -> m' <= c)
                    cands
                /\ (forall k cand' c, (k < j)%nat ->
                      cands !! k = Some cand' ->
                      candidate_cost F projected cand' = Done c -> m' < c))).
Proof.
  induction cands as [|cand rest IH]; intros c_idx min_cost best Hdef.
  - exists min_cost, best. split; [reflexivity|]. left. auto.
  - apply Forall_cons in Hdef as [[c Hc] Hrest].
    cbn [search_from]. rewrite Hc, bind_done. cbn [s_ltb Scalar_R].
    destruct (Rltb c min_cost) eqn:Hlt.
    + apply Rltb_true in Hlt.
      destruct (IH (S c_idx) c (Z.of_nat c_idx) Hrest)
        as (m' & b' & Hrun & [(-> & -> & Hall)|(j & cand' & Hj & -> & Hcj & Hlt' & Hall & Hfirst)]).
      * exists c, (Z.of_nat c_idx). split; [exact Hrun|]. right.
        exists 0%nat, cand. rewrite Nat.add_0_r.
        repeat split; try assumption; try reflexivity.
        -- apply Forall_cons. split; [|exact Hall].
           intros c' Hc'. assert (c' = c) by congruence. lra.
        -- intros k cand' c' Hk. lia.
      * exists m', (Z.of_nat (S c_idx + j)). split; [exact Hrun|]. right.
        exists (S j), cand'. replace (c_idx + S j)%nat with (S c_idx + j)%nat by lia.
        repeat split; try assumption; try reflexivity; [lra| |].
        -- apply Forall_cons. split; [|exact Hall].
           intros c' Hc'. assert (c' = c) by congruence. lra.
        -- intros [|k] cand'' c' Hk Hk' Hc'.
           ++ cbn in Hk'. assert (cand'' = cand) by congruence. subst cand''.
              assert (c' = c) by congruence. lra.
           ++ cbn in Hk'. eapply Hfirst; eauto. lia.
    + apply Rltb_false in Hlt.
      destruct (IH (S c_idx) min_cost best Hrest)
        as (m' & b' & Hrun & [(-> & -> & Hall)|(j & cand' & Hj & -> & Hcj & Hlt' & Hall & Hfirst)]).
      * exists min_cost, best. split; [exact Hrun|]. left.
        repeat split; try reflexivity.
        apply Forall_cons. split; [|exact Hall].
        intros c' Hc'. assert (c' = c) by congruence. lra.
      * exists m', (Z.of_nat (S c_idx + j)). split; [exact Hrun|]. right.
        exists (S j), cand'. replace (c_idx + S j)%nat with (S c_idx + j)%nat by lia.
        repeat split; try assumption; try reflexivity.
        -- apply Forall_cons. split; [|exact Hall].
           intros c' Hc'. assert (c' = c) by congruence. lra.
        -- intros [|k] cand'' c' Hk Hk' Hc'.
           ++ cbn in Hk'. assert (cand'' = cand) by congruence. subst cand''.
              assert (c' = c) by congruence. lra.
           ++ cbn in Hk'. eapply Hfirst; eauto. lia.
Qed.

End CorrespondenceSearch.

(* ===================================================================== *)
(** * The residual evaluation as a whole                                  *)
(* ===================================================================== *)

Section Evaluation.
Local Open Scope R_scope.
Variable F : ReprojectionCostFunctor R.
Implicit Types (H_params scale_param pose_params residuals : block R).

Local Abbreviation candidates :=
  (getCandidateMappings (detected_points_ F) (shape_type_ F)).

Lemma operator_call_projected H_params scale_param pose_params residuals :
  operator_call F H_params scale_param pose_params residuals
  = correspond_and_fill F
      (projected_points F H_params scale_param pose_params) residuals.
Proof.
  unfold operator_call, operator_body. cbn [s_cos s_sin Trig_R].
  rewrite project_model_points_done. reflexivity.
Qed.

(** The two ways out of the search: no candidate cost below the initial
    bound, and the zero branch runs; or a first candidate of least cost,
    whose weighted deltas are written. *)
Lemma correspond_and_fill_cases (projected : list (Point R)) residuals :
  costs_defined F projected candidates ->
  (Forall (fun cand => forall c,
      candidate_cost F projected cand = Done c -> DBL_MAX <= c) candidates
   /\ correspond_and_fill F projected residuals
      = Done (true, write_zeros 0 (length (model_points_ F)) residuals))
  \/ (exists j best c_best residuals',
        candidates !! j = Some best
        /\ candidate_cost F projected best = Done c_best
        /\ c_best < DBL_MAX
        /\ Forall (fun cand => forall c,
              candidate_cost F projected cand = Done c -> c_best <= c)
            candidates
        /\ (forall k cand c, (k < j)%nat -> candidates !! k = Some cand ->
              candidate_cost F projected cand = Done c -> c_best < c)
        /\ (length projected <= length best)%nat
        /\ correspond_and_fill F projected residuals = Done (true, residuals')
        /\ (forall i q d, projected !! i = Some q -> best !! i = Some d ->
              residuals' (2 * i)%nat = weight_sqrt_ F * (pt_x q - pt_x d)
              /\ residuals' (2 * i + 1)%nat
                 = weight_sqrt_ F * (pt_y q - pt_y d))
        /\ (forall k, (2 * length projected <= k)%nat ->
              residuals' k = residuals k)).
Proof.
  intros Hdef.
  destruct (search_from_result F projected candidates 0 DBL_MAX (-1) Hdef)
    as (m' & b' & Hrun & [(-> & -> & Hall)|(j & best & Hj & -> & Hbest & Hlt & Hall & Hfirst)]).
  - left. split; [exact Hall|].
    unfold correspond_and_fill.
    cbn [s_max Scalar_R]. rewrite Hrun, bind_done. reflexivity.
  - right.
    assert (Hlen : (length projected <= length best)%nat).
    { destruct (proj1 (candidate_cost_from_defined F projected best 0 0)
                  (ex_intro _ m' Hbest)) as [->|[_ Hlen]];
        [cbn; lia | exact Hlen]. }
    destruct (write_residuals_slots F best projected 0 residuals Hlen)
      as (residuals' & Hwrite & Hval & Hframe).
    exists j, best, m', residuals'.
    repeat (split; [assumption|]).
    split; [|split; [exact Hval | intros k Hk; apply Hframe; lia]].
    unfold correspond_and_fill.
    cbn [s_max Scalar_R]. rewrite Hrun, bind_done. cbn [snd].
    replace (Z.of_nat (0 + j) =? -1)%Z with false
      by (symmetry; apply Z.eqb_neq; lia).
    cbn [negb]. rewrite Nat2Z.id. cbn [Nat.add].
    rewrite (at_index_some _ _ _ Hj), bind_done, Hwrite, bind_done.
    reflexivity.
Qed.

(** With a non-zero [f_scale_] and a model polygon no longer than the
    detected one, every candidate's cost is defined. *)
Lemma costs_defined_well_formed (projected : list (Point R)) :
  f_scale_ F <> 0 ->
  (length projected <= length (detected_points_ F))%nat ->
  costs_defined F projected candidates.
Proof.
  intros Hfs Hlen. unfold costs_defined.
  eapply Forall_impl; [apply getCandidateMappings_lengths|].
  intros cand Hcand. apply candidate_cost_from_defined. right.
  split; [exact Hfs | rewrite Hcand; exact Hlen].
Qed.

Lemma length_projected_points H_params scale_param pose_params :
  length (projected_points F H_params scale_param pose_params)
  = length (model_points_ F).
Proof. unfold projected_points. apply length_map. Qed.

Lemma operator_call_total H_params scale_param pose_params residuals :
  f_scale_ F <> 0 ->
  (length (model_points_ F) <= length (detected_points_ F))%nat ->
  exists residuals',
    operator_call F H_params scale_param pose_params residuals
    = Done (true, residuals').
Proof.
  intros Hfs Hlen. rewrite operator_call_projected.
  destruct (correspond_and_fill_cases
              (projected_points F H_params scale_param pose_params) residuals)
    as [[_ Hrun]|(j & best & c & residuals' & _ & _ & _ & _ & _ & _ & Hrun & _)].
  - apply costs_defined_well_formed; [exact Hfs|].
    now rewrite length_projected_points.
  - eauto.
  - eauto.
Qed.

End Evaluation.

Section EvaluationAtIdentity.
Local Open Scope R_scope.

Lemma perspective_w_identity (pl : Point R) :
  perspective_w identity_H pl = 1.
Proof. unfold perspective_w. cbn. lra. Qed.

(** Under the identity homography, unit scale and no rotation the
    projection is the translation by [(tx, ty)]. *)
Lemma projected_point_identity (tx ty : R) (p_model : Point R) :
  projected_point identity_H 1 1 0 tx ty p_model
  = mkPoint (pt_x p_model + tx) (pt_y p_model + ty).
Proof.
  unfold projected_point. rewrite perspective_w_identity.
  rewrite clamp_w_large by (rewrite Rabs_pos_eq; lra).
  unfold numerator_x, numerator_y, plane_point. cbn.
  f_equal; lra.
Qed.

Lemma projected_points_identity (F : ReprojectionCostFunctor R) (tx ty : R) :
  projected_points F identity_H unit_scale (pose_block 0 tx ty)
  = map (fun p => mkPoint (pt_x p + tx) (pt_y p + ty)) (model_points_ F).
Proof.
  unfold projected_points. cbn [unit_scale pose_block block_of nth].
  rewrite cos_0, sin_0.
  apply map_ext. intros p. apply projected_point_identity.
Qed.

(** The accumulated cost never decreases along the loop. *)
Lemma candidate_cost_from_grows (F : ReprojectionCostFunctor R)
    (projected cand : list (Point R)) :
  forall i cost c,
    candidate_cost_from F projected cand i cost = Done c -> cost <= c.
Proof.
  induction projected as [|q rest IH]; intros i cost c Hc.
  - cbn in Hc. injection Hc as <-. lra.
  - cbn [candidate_cost_from] in Hc.
    destruct (at_index cand i) as [d|]; [|discriminate Hc].
    rewrite bind_done in Hc.
    destruct (checked_div _ (f_scale_ F)) as [rx|],
             (checked_div _ (f_scale_ F)) as [ry|];
      cbn [mbind outcome_bind obind] in Hc; try discriminate Hc.
    apply IH in Hc. cbn [s_add s_mul Scalar_R] in Hc.
    pose proof (huber_nonneg (rx * rx)) as Hx.
    pose proof (huber_nonneg (ry * ry)) as Hy.
    nra.
Qed.

End EvaluationAtIdentity.

(* ===================================================================== *)
(** * Claims on the residual evaluation                                   *)
(* ===================================================================== *)

Section ResidualClaims.
Local Open Scope R_scope.
Implicit Types (F : ReprojectionCostFunctor R).
Implicit Types (H_params scale_param pose_params residuals : block R).

(** C6: the divisor of the perspective division is never zero.  When the
    denominator [w] has [|w| < 1e-8] it is replaced by [1e-8] before the
    division, the divisor used always has magnitude at least [1e-8], and
    so the projection of every model vertex is defined for all values of
    H, scale and pose; with a non-zero [f_scale_] and a model polygon no
    longer than the detected one, the whole evaluation stays within
    defined behaviour and returns [true]. *)
Theorem perspective_division_total :
  (forall H_params scale cos_theta sin_theta tx ty (p_model : Point R),
      let pl := plane_point scale cos_theta sin_theta tx ty p_model in
      let w := perspective_w H_params pl in
      (Rabs w < 1e-8 -> clamp_w w = 1e-8)
      /\ 1e-8 <= Rabs (clamp_w w)
      /\ clamp_w w <> 0
      /\ project_point H_params scale cos_theta sin_theta tx ty p_model
         = Done (mkPoint (numerator_x H_params pl / clamp_w w)
                         (numerator_y H_params pl / clamp_w w)))
  /\ (forall H_params scale cos_theta sin_theta tx ty (model : list (Point R)),
        exists projected,
          project_model_points H_params scale cos_theta sin_theta tx ty model
          = Done projected
          /\ length projected = length model)
  /\ (forall F H_params scale_param pose_params residuals,
        f_scale_ F <> 0 ->
        (length (model_points_ F) <= length (detected_points_ F))%nat ->
        exists residuals',
          operator_call F H_params scale_param pose_params residuals
          = Done (true, residuals')).
Proof.
  split; [|split].
  - intros H_params scale cos_theta sin_theta tx ty p_model pl w.
    split; [apply clamp_w_small|].
    split; [apply clamp_w_bound|].
    split; [apply clamp_w_nonzero|].
    apply project_point_done.
  - intros H_params scale cos_theta sin_theta tx ty model.
    eexists. split; [apply project_model_points_done | apply length_map].
  - intros F H_params scale_param pose_params residuals.
    apply operator_call_total.
Qed.

(** C7: for the empty list of detected points the candidate set is empty,
    and the evaluation then returns [true] with zero in each of the
    [2 * |model|] residual slots (and leaves every other slot alone). *)
Theorem empty_detection_zero_residuals :
  forall (model : list (Point R)) (shape_type : string) (weight f_scale : R)
         H_params scale_param pose_params residuals,
    let F := mkReprojectionCostFunctor [] model shape_type weight f_scale in
    getCandidateMappings (detected_points_ F) (shape_type_ F) = []
    /\ exists residuals',
         operator_call F H_params scale_param pose_params residuals
         = Done (true, residuals')
         /\ (forall k, (k < 2 * length model)%nat -> residuals' k = 0)
         /\ (forall k, (2 * length model <= k)%nat ->
               residuals' k = residuals k).
Proof.
  intros model shape_type weight f_scale H_params scale_param pose_params
    residuals F.
  split; [reflexivity|].
  exists (write_zeros 0 (length model) residuals).
  split; [|split].
  - rewrite operator_call_projected. reflexivity.
  - intros k Hk. rewrite write_zeros_slots.
    destruct (Nat.leb_spec (2 * 0) k), (Nat.ltb_spec k (2 * (0 + length model)));
      cbn [andb]; try reflexivity; lia.
  - intros k Hk. rewrite write_zeros_slots.
    destruct (Nat.leb_spec (2 * 0) k), (Nat.ltb_spec k (2 * (0 + length model)));
      cbn [andb]; try reflexivity; lia.
Qed.

End ResidualClaims.

(* ===================================================================== *)
(** * The claims at concrete inputs                                       *)
(* ===================================================================== *)

Section ConcreteEvaluations.
Local Open Scope R_scope.

(** One turn of the cost loop, when it stays within defined behaviour. *)
Lemma candidate_cost_from_cons (F : ReprojectionCostFunctor R)
    (q d : Point R) (rest cand : list (Point R)) (i : nat) (cost : R) :
  cand !! i = Some d -> f_scale_ F <> 0 ->
  candidate_cost_from F (q :: rest) cand i cost
  = candidate_cost_from F rest cand (S i)
      (cost
       + (huber ((pt_x q - pt_x d) * weight_sqrt_ F / f_scale_ F
                 * ((pt_x q - pt_x d) * weight_sqrt_ F / f_scale_ F))
          + huber ((pt_y q - pt_y d) * weight_sqrt_ F / f_scale_ F
                   * ((pt_y q - pt_y d) * weight_sqrt_ F / f_scale_ F)))).
Proof.
  intros Hd Hfs. cbn [candidate_cost_from].
  rewrite (at_index_some _ _ _ Hd), bind_done.
  cbn [s_sub s_mul Scalar_R].
  rewrite !checked_div_nonzero by assumption. reflexivity.
Qed.

Lemma triangle_functor_fields :
  weight_sqrt_ triangle_functor = 1 /\ f_scale_ triangle_functor = 1
  /\ f_scale_ triangle_functor <> 0.
Proof. cbn. rewrite sqrt_1. repeat split; lra. Qed.

Lemma triangle_candidates :
  getCandidateMappings (detected_points_ triangle_functor)
                       (shape_type_ triangle_functor)
  = [ [mkPoint 0 0; mkPoint 1 0; mkPoint 0 1];
      [mkPoint 1 0; mkPoint 0 1; mkPoint 0 0];
      [mkPoint 0 1; mkPoint 0 0; mkPoint 1 0];
      [mkPoint 0 1; mkPoint 1 0; mkPoint 0 0];
      [mkPoint 1 0; mkPoint 0 0; mkPoint 0 1];
      [mkPoint 0 0; mkPoint 0 1; mkPoint 1 0] ].
Proof. reflexivity. Qed.

Lemma huber_of_large_square (x : R) : 1 < x -> huber (x * x) = 2 * x - 1.
Proof.
  intros Hx. rewrite huber_above by nra. rewrite sqrt_square by lra.
  reflexivity.
Qed.

Lemma DBL_MAX_below_2e308 : DBL_MAX <= 2 * (1e308 - 1) - 1.
Proof. unfold DBL_MAX, DBL_MAX_Z. lra. Qed.

(** A cost whose first x-term alone is out of the finite range. *)
Lemma first_term_overflows (F : ReprojectionCostFunctor R)
    (q d : Point R) (rest cand : list (Point R)) (c : R) :
  weight_sqrt_ F = 1 -> f_scale_ F = 1 ->
  cand !! 0%nat = Some d -> pt_x d <= 1 -> 1e308 <= pt_x q ->
  candidate_cost F (q :: rest) cand = Done c -> DBL_MAX <= c.
Proof.
  intros Hw Hfs Hd Hdx Hqx Hc. unfold candidate_cost in Hc.
  rewrite (candidate_cost_from_cons _ _ d) in Hc
    by (assumption || (rewrite Hfs; lra)).
  apply candidate_cost_from_grows in Hc. rewrite Hw, Hfs in Hc.
  cbn [s_zero Scalar_R] in Hc.
  rewrite huber_of_large_square in Hc by lra.
  match type of Hc with
  | context [huber (?y * ?y)] =>
      pose proof (huber_nonneg (y * y) (Rle_0_sqr y)) as Hy
  end.
  pose proof DBL_MAX_below_2e308. lra.
Qed.

Lemma far_triangle_costs_overflow (cand : list (Point R)) (c : R) :
  cand ∈ getCandidateMappings (detected_points_ triangle_functor)
                              (shape_type_ triangle_functor) ->
  candidate_cost triangle_functor
    (projected_points triangle_functor identity_H unit_scale
       (pose_block 0 1e308 0)) cand = Done c ->
  DBL_MAX <= c.
Proof.
  destruct triangle_functor_fields as (Hw & Hfs & Hnz).
  rewrite projected_points_identity, triangle_candidates.
  change (model_points_ triangle_functor) with unit_triangle.
  unfold unit_triangle. cbn [map pt_x pt_y].
  intros Hin Hc.
  repeat (apply elem_of_cons in Hin as [->|Hin]);
    try (refine (first_term_overflows _ _ _ _ _ _ Hw Hfs _ _ _ Hc);
         [reflexivity | cbn [pt_x]; lra | cbn [pt_x]; lra]).
  now apply elem_of_nil in Hin.
Qed.

Lemma far_triangle_evaluation :
  operator_call triangle_functor identity_H unit_scale
    (pose_block 0 1e308 0) stale_residuals
  = Done (true, write_zeros 0 3 stale_residuals).
Proof.
  destruct triangle_functor_fields as (Hw & Hfs & Hnz).
  rewrite operator_call_projected.
  destruct (correspond_and_fill_cases triangle_functor
              (projected_points triangle_functor identity_H unit_scale
                 (pose_block 0 1e308 0)) stale_residuals)
    as [[_ Hrun]|(j & best & c & residuals' & Hj & Hc & Hlt & _)].
  - apply costs_defined_well_formed; [exact Hnz|].
    rewrite length_projected_points. cbn. lia.
  - exact Hrun.
  - apply list_elem_of_lookup_2 in Hj.
    pose proof (far_triangle_costs_overflow best c Hj Hc). lra.
Qed.

End ConcreteEvaluations.

(** C3, as stated, fails: the triangle functor has six candidate
    orderings, yet with the pose translated by [tx = 1e308] every
    candidate's robust cost is at least [numeric_limits<double>::max()],
    no candidate is chosen, and the block is zeroed instead of holding
    weighted deltas. *)
Lemma overflowing_costs_zero_the_residuals :
  getCandidateMappings (detected_points_ triangle_functor)
                       (shape_type_ triangle_functor) <> []
  /\ ~ weighted_deltas_written triangle_functor identity_H unit_scale
         (pose_block 0 1e308 0) stale_residuals.
Proof.
  split; [rewrite triangle_candidates; discriminate|].
  intros (best & residuals' & Hin & Hrun & Hval).
  rewrite far_triangle_evaluation in Hrun.
  assert (Hres : residuals' = write_zeros 0 3 stale_residuals) by congruence.
  clear Hrun.
  destruct triangle_functor_fields as (Hw & Hfs & Hnz).
  rewrite projected_points_identity in Hval.
  change (model_points_ triangle_functor) with unit_triangle in Hval.
  rewrite triangle_candidates in Hin.
  assert (Hd : exists d, best !! 0 = Some d /\ (pt_x d <= 1)%R).
  { repeat (apply elem_of_cons in Hin as [->|Hin]);
      try (eexists; split; [reflexivity | cbn [pt_x]; lra]).
    now apply elem_of_nil in Hin. }
  destruct Hd as (d & Hd & Hdx).
  destruct (Hval 0 (mkPoint (0 + 1e308) (0 + 0))%R d eq_refl Hd) as [Hx _].
  rewrite Hres, write_zeros_slots, Hw in Hx.
  change ((2 * 0 <=? 2 * 0) && (2 * 0 <? 2 * (0 + 3))) with true in Hx.
  cbn [pt_x s_zero Scalar_R] in Hx. lra.
Qed.

(** The binary64 evaluation of the triangle translated by
    [(0.5, 0.25)]: its projection, and the cost of the unshifted
    ordering. *)
Lemma shifted_triangle_projection :
  (project_model_points identity_H_double 1 1 0 0.5 0.25
     (model_points_ triangle_functor_double))%float
  = Done shifted_triangle_double.
Proof. vm_compute. reflexivity. Qed.

Lemma shifted_triangle_cost :
  candidate_cost triangle_functor_double shifted_triangle_double
    (detected_points_ triangle_functor_double) = Done 0.9375%float
  /\ (0.9375%float <? s_max)%sc = true.
Proof. split; vm_compute; reflexivity. Qed.

(** At [T = double] the translated triangle has a candidate of cost
    [0.9375], so the evaluation writes the weighted deltas of a
    candidate of least cost. *)
Lemma residuals_of_least_cost_candidate_witness :
  exists j best c_best residuals',
    getCandidateMappings (detected_points_ triangle_functor_double)
      (shape_type_ triangle_functor_double) !! j = Some best
    /\ candidate_cost triangle_functor_double shifted_triangle_double best
       = Done c_best
    /\ (c_best <? s_max)%sc = true
    /\ (forall cand c,
          cand ∈ getCandidateMappings
                   (detected_points_ triangle_functor_double)
                   (shape_type_ triangle_functor_double) ->
          candidate_cost triangle_functor_double shifted_triangle_double cand
          = Done c ->
          (c <? c_best)%sc = false)
    /\ (forall k cand c, k < j ->
          getCandidateMappings (detected_points_ triangle_functor_double)
            (shape_type_ triangle_functor_double) !! k = Some cand ->
          candidate_cost triangle_functor_double shifted_triangle_double cand
          = Done c -> c <> c_best)
    /\ (operator_body triangle_functor_double identity_H_double
          1 1 0 0.5 0.25 stale_residuals_double)%float
       = Done (true, residuals')
    /\ length shifted_triangle_double <= length best
    /\ (forall i q d,
          shifted_triangle_double !! i = Some q -> best !! i = Some d ->
          residuals' (2 * i)
          = (weight_sqrt_ triangle_functor_double * (pt_x q - pt_x d))%sc
          /\ residuals' (2 * i + 1)
             = (weight_sqrt_ triangle_functor_double
                * (pt_y q - pt_y d))%sc)
    /\ (forall k, 2 * length shifted_triangle_double <= k ->
          residuals' k = stale_residuals_double k).
Proof.
  apply (residuals_of_least_cost_candidate (ST := Scalar_double)
           float_ltb_irrefl float_ltb_trans
           triangle_functor_double identity_H_double 1 1 0 0.5 0.25
           stale_residuals_double shifted_triangle_double
           shifted_triangle_projection)%float.
  exists (detected_points_ triangle_functor_double), 0.9375%float.
  split; [apply list_elem_of_here | exact shifted_triangle_cost].
Defined.

(** On the line where the denominator vanishes the divisor is [1e-8], and
    the triangle functor is evaluated without leaving defined behaviour. *)
Lemma perspective_division_total_witness :
  clamp_w (perspective_w vanishing_H
             (plane_point 1 1 0 0 0 (mkPoint 1 0)))%R = 1e-8%R
  /\ exists residuals',
       operator_call triangle_functor vanishing_H unit_scale
         (pose_block 0 0 0) stale_residuals = Done (true, residuals').
Proof.
  split.
  - pose proof (proj1 perspective_division_total vanishing_H
                  1 1 0 0 0 (mkPoint 1 0))%R as H.
    cbv zeta in H. apply (proj1 H).
    unfold perspective_w, plane_point.
    cbn [H_entry vanishing_H block_of nth pt_x pt_y
         s_mul s_add s_sub s_one Scalar_R].
    match goal with
    | |- (Rabs ?x < _)%R => replace x with 0%R by lra
    end.
    rewrite Rabs_R0. lra.
  - apply (proj2 (proj2 perspective_division_total)).
    + apply triangle_functor_fields.
    + cbn. lia.
Defined.

(** No detection for a three-vertex model: slots 0 to 5 are zeroed, slot
    6 keeps its value. *)
Lemma empty_detection_zero_residuals_witness :
  exists residuals',
    operator_call (mkReprojectionCostFunctor [] unit_triangle "triangle" 1 1)%R
      identity_H unit_scale (pose_block 0 0 0) stale_residuals
    = Done (true, residuals')
    /\ residuals' 5 = 0%R /\ residuals' 6 = 7%R.
Proof.
  destruct (empty_detection_zero_residuals unit_triangle "triangle" 1 1
              identity_H unit_scale (pose_block 0 0 0) stale_residuals)%R
    as (_ & residuals' & Hrun & Hzero & Hkeep).
  exists residuals'. split; [exact Hrun|]. split.
  - apply Hzero. cbn. lia.
  - rewrite Hkeep by (cbn; lia). reflexivity.
Defined.

Lemma grazing_point_denominator :
  (perspective_w vanishing_H grazing_point = - 1e-9)%R
  /\ (numerator_x vanishing_H grazing_point = 1 + 1e-9)%R.
Proof.
  unfold perspective_w, numerator_x, grazing_point, plane_point.
  cbn [H_entry vanishing_H block_of nth pt_x pt_y
       s_mul s_add s_sub s_one Scalar_R].
  split; lra.
Qed.

(** At the grazing point the denominator is [-1e-9]: the projected x is
    positive where the quotient by the denominator itself is negative. *)
Lemma clamp_discards_sign_witness :
  Rsign (numerator_x vanishing_H grazing_point / 1e-8)
  = (- Rsign (numerator_x vanishing_H grazing_point
              / perspective_w vanishing_H grazing_point))%Z.
Proof.
  pose proof (proj2 (clamp_discards_sign vanishing_H
                       1 1 0 1e-9 0 (mkPoint 1 0)))%R as H.
  cbv zeta in H. fold grazing_point in H.
  apply H. destruct grazing_point_denominator as [-> _]. lra.
Defined.

Lemma grazing_point_signs :
  Rsign (numerator_x vanishing_H grazing_point / 1e-8) = 1%Z
  /\ Rsign (numerator_x vanishing_H grazing_point
            / perspective_w vanishing_H grazing_point) = (-1)%Z.
Proof.
  destruct grazing_point_denominator as [-> ->]. split.
  - apply Rsign_pos. lra.
  - apply Rsign_neg. lra.
Qed.

(* ===================================================================== *)
(** * The same evaluations at [T = double]                                *)
(* ===================================================================== *)

(** The triangle translated by [(0.5, 0.25)]: the plain deltas of the
    unshifted ordering, and slots 6 and 7 untouched. *)
Example double_translated_triangle :
  observed 8 (operator_body triangle_functor_double identity_H_double
                1 1 0 0.5 0.25 stale_residuals_double)%float
  = Done (true, [0.5; 0.25; 0.5; 0.25; 0.5; 0.25; 7; 7]%float).
Proof. vm_compute. reflexivity. Qed.

(** Translated by the binary64 value nearest [1e308] every cost is
    infinite, nothing compares below [DBL_MAX], the block is zeroed. *)
Example double_overflowing_costs :
  observed 8 (operator_body triangle_functor_double identity_H_double
                1 1 0 0x1.1ccf385ebc8ap+1023 0 stale_residuals_double)%float
  = Done (true, [0; 0; 0; 0; 0; 0; 7; 7]%float).
Proof. vm_compute. reflexivity. Qed.

(** No detected points: the zero branch. *)
Example double_empty_detection :
  observed 8 (operator_body
                (mkReprojectionCostFunctor []
                   (model_points_ triangle_functor_double) "triangle" 1 1)
                identity_H_double 1 1 0 3 4 stale_residuals_double)%float
  = Done (true, [0; 0; 0; 0; 0; 0; 7; 7]%float).
Proof. vm_compute. reflexivity. Qed.

(** A denominator of [-2^-30]: the divisor becomes [+1e-8], and the
    projected x is about [+1e8] where the plain quotient is about
    [-1.07e9]. *)
Example double_negative_denominator :
  (perspective_w vanishing_H_double
     (plane_point 1 1 0 0x1p-30 0 (mkPoint 1 0))
   = -0x1p-30
   /\ project_point vanishing_H_double 1 1 0 0x1p-30 0 (mkPoint 1 0)
      = Done (mkPoint ((1 + 0x1p-30) / 0x1.5798ee2308c3ap-27) 0)
   /\ (0 <? (1 + 0x1p-30) / 0x1.5798ee2308c3ap-27) = true
   /\ (1 + 0x1p-30) / (-0x1p-30) = -1073741825)%float.
Proof. repeat split; vm_compute; reflexivity. Qed.

(* ===================================================================== *)
(** * The flattened filter state                                          *)
(* ===================================================================== *)

Section StateVector.
Context {T : Type} {ST : Scalar T}.
Implicit Types (H : Types.Matx33d T) (scale : T).
Implicit Types (poses : gmap Z (Types.Pose T)).

Lemma length_pose_slots (p : option (Types.Pose T)) :
  length (pose_slots p) = 3.
Proof. destruct p; reflexivity. Qed.

Lemma length_flat_map_chunks (f : nat -> list T) (l : list nat) :
  (forall i, length (f i) = 3) -> length (flat_map f l) = 3 * length l.
Proof.
  intros Hf. induction l as [|a l IH]; [reflexivity|].
  cbn [flat_map length]. rewrite length_app, Hf, IH. lia.
Qed.

(** Entry [3i + j] of a concatenation of three-entry chunks is entry [j]
    of chunk [i]. *)
Lemma nth_flat_map_chunks (f : nat -> list T) (d : T) :
  (forall i, length (f i) = 3) ->
  forall n a i j, i < n -> j < 3 ->
    nth (3 * i + j) (flat_map f (seq a n)) d = nth j (f (a + i)) d.
Proof.
  intros Hf. induction n as [|n IH]; intros a i j Hi Hj; [lia|].
  cbn [seq flat_map]. destruct i as [|i].
  - rewrite Nat.mul_0_r, Nat.add_0_l, Nat.add_0_r.
    apply app_nth1. rewrite Hf. exact Hj.
  - rewrite app_nth2 by (rewrite Hf; lia). rewrite Hf.
    replace (3 * S i + j - 3) with (3 * i + j) by lia.
    rewrite IH by lia. f_equal. f_equal. lia.
Qed.

Lemma length_packParamsTracked H scale poses n :
  length (packParamsTracked H scale poses n) = 9 + 3 * n.
Proof.
  unfold packParamsTracked, h_free_params.
  rewrite !length_app, length_flat_map_chunks
    by (intros; apply length_pose_slots).
  rewrite length_seq. reflexivity.
Qed.

Lemma packed_pose_entry H scale poses n i j :
  i < n -> j < 3 ->
  nth (9 + 3 * i + j) (packParamsTracked H scale poses n) s_zero
  = nth j (pose_slots (poses !! Z.of_nat i)) s_zero.
Proof.
  intros Hi Hj. unfold packParamsTracked, h_free_params.
  cbn [app Nat.add nth].
  rewrite (nth_flat_map_chunks _ _ (fun i => length_pose_slots _) n 0 i j Hi Hj).
  reflexivity.
Qed.

(** Looking a key up in the map built from an indexed list. *)
Lemma lookup_indexed_map {A : Type} (g : nat -> A) (n a : nat) (k : Z) :
  (list_to_map (map (fun i => (Z.of_nat i, g i)) (seq a n)) : gmap Z A) !! k
  = if decide (Z.of_nat a <= k < Z.of_nat (a + n))%Z
    then Some (g (Z.to_nat k)) else None.
Proof.
  revert a. induction n as [|n IH]; intros a.
  - cbn. destruct (decide _); [lia | reflexivity].
  - cbn [seq map list_to_map foldr]. cbn [fst snd uncurry curry].
    destruct (decide (k = Z.of_nat a)) as [->|Hne].
    + rewrite lookup_insert_eq, Nat2Z.id.
      destruct (decide _); [reflexivity | lia].
    + rewrite lookup_insert_ne by congruence. rewrite IH.
      repeat destruct (decide _); try reflexivity; lia.
Qed.

(** A pose read back from the slots it was written to. *)
Lemma unpacked_pose H scale poses (i : nat) (p : Types.Pose T) :
  i < N_OBJECTS -> poses !! Z.of_nat i = Some p ->
  let x := packParamsTracked H scale poses N_OBJECTS in
  Types.mkPose (nth (9 + 3 * i) x s_zero) (nth (9 + 3 * i + 1) x s_zero)
    (nth (9 + 3 * i + 2) x s_zero) = p.
Proof.
  intros Hi Hp x. subst x.
  rewrite <- (Nat.add_0_r (9 + 3 * i)) at 1.
  rewrite !packed_pose_entry, Hp by (assumption || lia).
  destruct p; reflexivity.
Qed.

(** C8: for a gauge-fixed homography [H], a scale and a pose map whose
    piece ids are those of the seven tracked objects, [initialize]
    followed by [getState] gives back exactly [H], the scale and the
    poses, through a state vector of [8 + 1 + 7 * 3 = 30] entries. *)
Theorem initialize_getState_roundtrip :
  forall (seed_P : list (list T)) (kt : KalmanTracker T) H scale poses
         (timestamp : T),
    gauge_fixed H -> tracked_ids poses ->
    let kt' := initialize seed_P kt H scale poses timestamp in
    getState kt' = (H, scale, poses)
    /\ length (state_ kt') = N_STATES
    /\ isInitialized kt' = true.
Proof.
  intros seed_P kt H scale poses timestamp Hgauge Hids kt'.
  split; [|split; [apply length_packParamsTracked | reflexivity]].
  unfold getState, kt', initialize, unpackParamsTracked.
  cbn [state_ observed_objects_].
  f_equal; [f_equal|].
  - unfold gauge_fixed in Hgauge. rewrite <- Hgauge.
    destruct H; reflexivity.
  - apply map_eq. intros k.
    destruct (poses !! k) as [p|] eqn:Hk.
    + assert (Hin : k ∈ dom poses) by (eapply elem_of_dom_2; eassumption).
      pose proof (Hids k Hin) as Hrange.
      apply map_lookup_filter_Some_2; [|exact Hin].
      rewrite lookup_indexed_map.
      destruct (decide _) as [_|Hout]; [|cbn in Hout; lia].
      f_equal. apply unpacked_pose; [lia|].
      rewrite Z2Nat.id by lia. exact Hk.
    + apply map_lookup_filter_None_2. right. intros p _ Hin.
      cbn [fst] in Hin. apply elem_of_dom in Hin as [q Hq]. congruence.
Qed.

(** Whatever homography the filter is initialised with, the one read
    back is gauge-fixed: the state keeps the eight free entries only. *)
Lemma getState_gauge_fixed (seed_P : list (list T)) (kt : KalmanTracker T)
    H scale poses (timestamp : T) :
  gauge_fixed
    (fst (fst (getState (initialize seed_P kt H scale poses timestamp)))).
Proof. reflexivity. Qed.

End StateVector.

Lemma sample_poses_double_tracked : tracked_ids sample_poses_double.
Proof.
  intros k Hk. unfold sample_poses_double in Hk.
  rewrite dom_insert_L, dom_singleton_L in Hk.
  apply elem_of_union in Hk as [Hk|Hk];
    apply elem_of_singleton in Hk; subst k; unfold N_OBJECTS; lia.
Qed.

(** The sample homography and the poses of pieces 0 and 3 come back. *)
Lemma initialize_getState_roundtrip_witness :
  getState (initialize [] fresh_tracker_double sample_H_double 2
              sample_poses_double 0)%float
  = (sample_H_double, 2%float, sample_poses_double).
Proof.
  apply (initialize_getState_roundtrip [] fresh_tracker_double
           sample_H_double 2 sample_poses_double 0)%float.
  - reflexivity.
  - exact sample_poses_double_tracked.
Defined.

(** The thirty entries of the state for the sample input. *)
Example sample_state_vector :
  state_ (initialize [] fresh_tracker_double sample_H_double 2
            sample_poses_double 0)%float
  = [1; 0.5; 3; 0.25; 1; 4; 0.125; 0;  2;
     0.5; 1; 2;  0; 0; 0;  0; 0; 0;  0.25; 3; 4;
     0; 0; 0;  0; 0; 0;  0; 0; 0]%float.
Proof. vm_compute. reflexivity. Qed.

(* ===================================================================== *)
(** * The H-update gate and the locking hysteresis                        *)
(* ===================================================================== *)

Section GateAndLock.
Local Open Scope R_scope.
Implicit Types (ba : TrackedBA R) (candidate : Types.BASolution R).
Implicit Types (mean_error : R).

Lemma header_thresholds_new : header_thresholds TrackedBA_new.
Proof. unfold header_thresholds. cbn. repeat split; lra. Qed.

(** A frame changes neither the switch nor the thresholds. *)
Lemma processFrame_configuration ba candidate mean_error :
  let ba' := fst (processFrame ba candidate mean_error) in
  locking_enabled_ ba' = locking_enabled_ ba
  /\ (header_thresholds ba -> header_thresholds ba').
Proof. split; [reflexivity | intros Hcfg; exact Hcfg]. Qed.

Lemma gate_rejects ba candidate mean_error :
  locking_enabled_ ba = true ->
  improvement (previous_mean_error_ ba) mean_error
    < h_update_min_improvement_ ba
  \/ h_update_max_norm_ ba
     <= h_update_norm (Types.H candidate) (accepted_H_ ba) ->
  gate_passes ba candidate mean_error = false.
Proof.
  intros Hon Hfail. unfold gate_passes. rewrite Hon.
  cbn [s_leb s_ltb Scalar_R]. apply andb_false_iff.
  destruct Hfail as [Hi|Hn]; [left|right].
  - now apply Rleb_false.
  - now apply Rltb_false.
Qed.

(** C4 (as amended): with locking enabled, a frame whose candidate
    improves the mean error by less than [h_update_min_improvement_]
    (0.05) relative to [previous_mean_error_], or whose H change has norm
    above [h_update_max_norm_] (0.10), leaves the accepted H and the
    accepted scale exactly as they were; the frame's solution carries
    that H and scale (the frozen ones while locked) and the poses of the
    candidate. *)
Theorem gate_keeps_accepted_homography :
  forall ba candidate mean_error,
    header_thresholds ba ->
    locking_enabled_ ba = true ->
    improvement (previous_mean_error_ ba) mean_error < 0.05
    \/ 0.10 < h_update_norm (Types.H candidate) (accepted_H_ ba) ->
    let ba' := fst (processFrame ba candidate mean_error) in
    let out := snd (processFrame ba candidate mean_error) in
    accepted_H_ ba' = accepted_H_ ba
    /\ accepted_scale_ ba' = accepted_scale_ ba
    /\ Types.poses out = Types.poses candidate
    /\ (homography_locked_ ba = false ->
          Types.H out = accepted_H_ ba
          /\ Types.scale out = accepted_scale_ ba)
    /\ (homography_locked_ ba = true ->
          Types.H out = locked_H_ ba /\ Types.scale out = locked_scale_ ba).
Proof.
  intros ba candidate mean_error (_ & _ & _ & Hmin & Hmax) Hon Hfail ba' out.
  assert (Hgate : gate_passes ba candidate mean_error = false).
  { apply gate_rejects; [exact Hon|]. rewrite Hmin, Hmax.
    destruct Hfail; [left | right]; lra. }
  subst ba' out. unfold processFrame.
  cbn [fst snd accepted_H_ accepted_scale_ with_state
       Types.poses Types.H Types.scale].
  rewrite Hgate, Hon, andb_false_r. cbn [andb].
  split; [reflexivity|]. split; [reflexivity|]. split; [reflexivity|].
  split; intros ->; split; reflexivity.
Qed.

(** ** One frame of the hysteresis *)

Lemma lock_step_low ba mean_error accepted_H accepted_scale :
  locking_enabled_ ba = true -> homography_locked_ ba = false ->
  mean_error < lock_error_threshold_ ba ->
  lock_step ba mean_error accepted_H accepted_scale
  = if (frames_needed_for_lock_ ba <=? frames_stable_ ba + 1)%Z
    then mkLockState true accepted_H accepted_scale (frames_stable_ ba + 1)
    else mkLockState false (locked_H_ ba) (locked_scale_ ba)
           (frames_stable_ ba + 1).
Proof.
  intros Hon Hun Hlow. unfold lock_step. rewrite Hon, Hun.
  cbn [negb s_ltb Scalar_R].
  now rewrite (proj2 (Rltb_true _ _) Hlow).
Qed.

Lemma lock_step_locked ba mean_error accepted_H accepted_scale :
  locking_enabled_ ba = true -> homography_locked_ ba = true ->
  lock_step ba mean_error accepted_H accepted_scale
  = if Rltb (unlock_error_threshold_ ba) mean_error
    then mkLockState false (locked_H_ ba) (locked_scale_ ba) 0
    else mkLockState true (locked_H_ ba) (locked_scale_ ba)
           (frames_stable_ ba).
Proof.
  intros Hon Hlocked. unfold lock_step. rewrite Hon, Hlocked. reflexivity.
Qed.

(** While unlocked and short of the needed count, a low-error frame
    counts one more and stays unlocked. *)
Lemma low_frame_counts ba candidate mean_error :
  locking_enabled_ ba = true -> homography_locked_ ba = false ->
  mean_error < lock_error_threshold_ ba ->
  (frames_stable_ ba + 1 < frames_needed_for_lock_ ba)%Z ->
  let ba' := fst (processFrame ba candidate mean_error) in
  homography_locked_ ba' = false
  /\ frames_stable_ ba' = (frames_stable_ ba + 1)%Z.
Proof.
  intros Hon Hun Hlow Hshort ba'. subst ba'. unfold processFrame.
  cbn [fst homography_locked_ frames_stable_ with_state].
  rewrite lock_step_low by assumption.
  destruct (Z.leb_spec (frames_needed_for_lock_ ba) (frames_stable_ ba + 1));
    [lia|]. split; reflexivity.
Qed.

(** The low-error frame that completes the count locks, and freezes the
    H and scale accepted in that frame. *)
Lemma low_frame_locks ba candidate mean_error :
  locking_enabled_ ba = true -> homography_locked_ ba = false ->
  mean_error < lock_error_threshold_ ba ->
  (frames_needed_for_lock_ ba <= frames_stable_ ba + 1)%Z ->
  let ba' := fst (processFrame ba candidate mean_error) in
  let out := snd (processFrame ba candidate mean_error) in
  homography_locked_ ba' = true
  /\ locked_H_ ba' = accepted_H_ ba'
  /\ locked_scale_ ba' = accepted_scale_ ba'
  /\ Types.homographyLocked out = true
  /\ Types.H out = locked_H_ ba' /\ Types.scale out = locked_scale_ ba'.
Proof.
  intros Hon Hun Hlow Hfull ba' out. subst ba' out. unfold processFrame.
  cbn [fst snd homography_locked_ locked_H_ locked_scale_ accepted_H_
       accepted_scale_ with_state Types.homographyLocked Types.H Types.scale].
  rewrite lock_step_low by assumption.
  destruct (Z.leb_spec (frames_needed_for_lock_ ba) (frames_stable_ ba + 1));
    [|lia].
  rewrite Hon, Hun. cbn [andb negb ls_locked ls_H ls_scale].
  repeat split; reflexivity.
Qed.

(** While locked, a frame with mean error above the unlock threshold
    unlocks. *)
Lemma high_frame_unlocks ba candidate mean_error :
  locking_enabled_ ba = true -> homography_locked_ ba = true ->
  unlock_error_threshold_ ba < mean_error ->
  let ba' := fst (processFrame ba candidate mean_error) in
  let out := snd (processFrame ba candidate mean_error) in
  homography_locked_ ba' = false /\ Types.homographyLocked out = false.
Proof.
  intros Hon Hlocked Hhigh ba' out. subst ba' out. unfold processFrame.
  cbn [fst snd homography_locked_ with_state Types.homographyLocked].
  rewrite lock_step_locked by assumption.
  rewrite (proj2 (Rltb_true _ _) Hhigh). cbn [ls_locked].
  rewrite andb_false_r. split; reflexivity.
Qed.

(** While locked, a frame with mean error at most the unlock threshold
    stays locked, keeps the frozen H and scale, and reports them with
    the candidate's poses. *)
Lemma moderate_frame_stays_locked ba candidate mean_error :
  locking_enabled_ ba = true -> homography_locked_ ba = true ->
  mean_error <= unlock_error_threshold_ ba ->
  let ba' := fst (processFrame ba candidate mean_error) in
  let out := snd (processFrame ba candidate mean_error) in
  homography_locked_ ba' = true
  /\ locked_H_ ba' = locked_H_ ba /\ locked_scale_ ba' = locked_scale_ ba
  /\ Types.homographyLocked out = true
  /\ Types.H out = locked_H_ ba /\ Types.scale out = locked_scale_ ba
  /\ Types.poses out = Types.poses candidate.
Proof.
  intros Hon Hlocked Hmod ba' out. subst ba' out. unfold processFrame.
  cbn [fst snd homography_locked_ locked_H_ locked_scale_ with_state
       Types.homographyLocked Types.H Types.scale Types.poses].
  rewrite lock_step_locked by assumption.
  rewrite (proj2 (Rltb_false _ _) Hmod). cbn [ls_locked ls_H ls_scale].
  rewrite Hon, Hlocked. cbn [andb]. repeat split; reflexivity.
Qed.

(** ** Runs of frames *)

Lemma run_frames_app ba (frames more : list (Types.BASolution R * R)) :
  run_frames ba (frames ++ more) = run_frames (run_frames ba frames) more.
Proof.
  revert ba. induction frames as [|[candidate mean_error] rest IH]; intros ba.
  - reflexivity.
  - cbn [app run_frames]. apply IH.
Qed.

Lemma run_frames_configuration (frames : list (Types.BASolution R * R)) :
  forall ba,
    locking_enabled_ (run_frames ba frames) = locking_enabled_ ba
    /\ frames_needed_for_lock_ (run_frames ba frames)
       = frames_needed_for_lock_ ba
    /\ lock_error_threshold_ (run_frames ba frames) = lock_error_threshold_ ba
    /\ unlock_error_threshold_ (run_frames ba frames)
       = unlock_error_threshold_ ba.
Proof.
  induction frames as [|[candidate mean_error] rest IH]; intros ba.
  - repeat split.
  - cbn [run_frames].
    destruct (IH (fst (processFrame ba candidate mean_error)))
      as (-> & -> & -> & ->).
    repeat split.
Qed.

(** Low-error frames short of the needed count leave the orchestrator
    unlocked and are all counted. *)
Lemma low_frames_counted (frames : list (Types.BASolution R * R)) :
  forall ba,
    locking_enabled_ ba = true -> homography_locked_ ba = false ->
    Forall (fun f => snd f < lock_error_threshold_ ba) frames ->
    (frames_stable_ ba + Z.of_nat (length frames)
     < frames_needed_for_lock_ ba)%Z ->
    homography_locked_ (run_frames ba frames) = false
    /\ frames_stable_ (run_frames ba frames)
       = (frames_stable_ ba + Z.of_nat (length frames))%Z.
Proof.
  induction frames as [|[candidate mean_error] rest IH];
    intros ba Hon Hun Hlow Hshort.
  - cbn. split; [exact Hun | lia].
  - apply Forall_cons in Hlow as [Hlow Hrest]. cbn [snd] in Hlow.
    cbn [length] in Hshort. cbn [run_frames].
    destruct (low_frame_counts ba candidate mean_error Hon Hun Hlow)
      as [Hun' Hcount]; [lia|].
    destruct (IH (fst (processFrame ba candidate mean_error)))
      as [Hun'' Hcount''].
    + exact Hon.
    + exact Hun'.
    + exact Hrest.
    + rewrite Hcount. change (frames_needed_for_lock_ _)
        with (frames_needed_for_lock_ ba). lia.
    + split; [exact Hun''|]. rewrite Hcount'', Hcount. cbn [length]. lia.
Qed.

(** Low-error frames that fill the count reach the lock, and a lock
    already held survives them: a mean error below the lock threshold is
    also below the unlock threshold. *)
Lemma low_frames_reach_lock (frames : list (Types.BASolution R * R)) :
  forall ba,
    locking_enabled_ ba = true ->
    lock_error_threshold_ ba <= unlock_error_threshold_ ba ->
    Forall (fun f => snd f < lock_error_threshold_ ba) frames ->
    homography_locked_ ba = true
    \/ (frames <> []
        /\ (frames_needed_for_lock_ ba
            <= frames_stable_ ba + Z.of_nat (length frames))%Z) ->
    homography_locked_ (run_frames ba frames) = true.
Proof.
  induction frames as [|[candidate mean_error] rest IH];
    intros ba Hon Hgap Hlow Hstart.
  - destruct Hstart as [Hlocked|[Hne _]]; [exact Hlocked | congruence].
  - apply Forall_cons in Hlow as [Hlow Hrest]. cbn [snd] in Hlow.
    cbn [run_frames]. apply IH; try assumption.
    destruct (homography_locked_ ba) eqn:Hl.
    + left.
      apply (moderate_frame_stays_locked ba candidate mean_error Hon Hl).
      lra.
    + destruct Hstart as [Hlocked|[_ Hfill]]; [discriminate Hlocked|].
      cbn [length] in Hfill.
      destruct (Z_lt_le_dec (frames_stable_ ba + 1)
                  (frames_needed_for_lock_ ba)) as [Hshort|Hfull].
      * right.
        destruct (low_frame_counts ba candidate mean_error Hon Hl Hlow Hshort)
          as [_ Hcount].
        split; [destruct rest; [cbn [length] in Hfill; lia | discriminate]|].
        rewrite Hcount.
        change (frames_needed_for_lock_ _) with (frames_needed_for_lock_ ba).
        lia.
      * left.
        apply (low_frame_locks ba candidate mean_error Hon Hl Hlow Hfull).
Qed.

(** C5: with locking enabled and the header's thresholds, starting
    unlocked, five consecutive frames each with mean error below 5.0
    leave the orchestrator locked; counted from zero, it is still
    unlocked after each of the first four and the frozen H and scale are
    those accepted at the fifth.  While locked, a frame with mean error
    above 15.0 unlocks; and while locked, a frame with mean error at most
    15.0 (so any between 5.0 and 15.0) stays locked, keeps the frozen H
    and scale and reports them with the new poses. *)
Theorem locking_hysteresis :
  (forall ba (frames : list (Types.BASolution R * R)),
      header_thresholds ba ->
      locking_enabled_ ba = true -> homography_locked_ ba = false ->
      (0 <= frames_stable_ ba)%Z ->
      length frames = 5%nat -> Forall (fun f => snd f < 5) frames ->
      homography_locked_ (run_frames ba frames) = true
      /\ (frames_stable_ ba = 0%Z ->
            (forall n, (n < 5)%nat ->
               homography_locked_ (run_frames ba (take n frames)) = false)
            /\ locked_H_ (run_frames ba frames)
               = accepted_H_ (run_frames ba frames)
            /\ locked_scale_ (run_frames ba frames)
               = accepted_scale_ (run_frames ba frames)))
  /\ (forall ba candidate mean_error,
        header_thresholds ba ->
        locking_enabled_ ba = true -> homography_locked_ ba = true ->
        15 < mean_error ->
        homography_locked_ (fst (processFrame ba candidate mean_error)) = false
        /\ Types.homographyLocked (snd (processFrame ba candidate mean_error))
           = false)
  /\ (forall ba candidate mean_error,
        header_thresholds ba ->
        locking_enabled_ ba = true -> homography_locked_ ba = true ->
        mean_error <= 15 ->
        let ba' := fst (processFrame ba candidate mean_error) in
        let out := snd (processFrame ba candidate mean_error) in
        homography_locked_ ba' = true
        /\ locked_H_ ba' = locked_H_ ba /\ locked_scale_ ba' = locked_scale_ ba
        /\ Types.homographyLocked out = true
        /\ Types.H out = locked_H_ ba /\ Types.scale out = locked_scale_ ba
        /\ Types.poses out = Types.poses candidate).
Proof.
  split; [|split].
  - intros ba frames (Hneed & Hlock & Hunlock & _) Hon Hun Hpos Hlen Hlow.
    rewrite <- Hlock in Hlow.
    split.
    { apply low_frames_reach_lock; try assumption.
      - rewrite Hlock, Hunlock. lra.
      - right. split; [intros ->; discriminate Hlen|].
        rewrite Hneed, Hlen. lia. }
    intros Hzero. split.
    + intros n Hn.
      apply (low_frames_counted (take n frames) ba Hon Hun).
      * apply Forall_take. exact Hlow.
      * rewrite length_take, Hzero, Hneed. lia.
    + rewrite <- (take_drop 4 frames), run_frames_app.
      destruct (low_frames_counted (take 4 frames) ba Hon Hun) as [Hun4 Hcount4].
      { apply Forall_take. exact Hlow. }
      { rewrite length_take, Hzero, Hneed. lia. }
      rewrite length_take, Hlen, Hzero in Hcount4.
      destruct (run_frames_configuration (take 4 frames) ba)
        as (Hon4 & Hneed4 & Hlock4 & _).
      destruct (drop 4 frames) as [|[candidate mean_error] [|]] eqn:Hlast;
        try (apply (f_equal length) in Hlast;
             rewrite length_drop, Hlen in Hlast; discriminate Hlast).
      assert (Hlow5 : mean_error < lock_error_threshold_ ba).
      { assert (Hin : (candidate, mean_error) ∈ frames).
        { rewrite <- (take_drop 4 frames), Hlast.
          apply elem_of_app. right. apply list_elem_of_here. }
        rewrite Forall_forall in Hlow. exact (Hlow _ Hin). }
      cbn [run_frames].
      destruct (low_frame_locks (run_frames ba (take 4 frames))
                  candidate mean_error)
        as (_ & HH & Hs & _).
      * rewrite Hon4. exact Hon.
      * exact Hun4.
      * rewrite Hlock4. exact Hlow5.
      * rewrite Hneed4, Hneed, Hcount4. cbn. lia.
      * split; assumption.
  - intros ba candidate mean_error (_ & _ & Hunlock & _) Hon Hlocked Hhigh.
    apply high_frame_unlocks; try assumption. rewrite Hunlock. exact Hhigh.
  - intros ba candidate mean_error (_ & _ & Hunlock & _) Hon Hlocked Hmod.
    apply moderate_frame_stays_locked; try assumption.
    rewrite Hunlock. exact Hmod.
Qed.

End GateAndLock.

(* ===================================================================== *)
(** * The orchestrator and the optimizer at concrete inputs               *)
(* ===================================================================== *)

Lemma steady_orchestrator_thresholds : header_thresholds steady_orchestrator.
Proof. exact header_thresholds_new. Qed.

Lemma steady_improvement :
  (improvement (previous_mean_error_ steady_orchestrator) 3 < 0.05)%R.
Proof.
  unfold improvement.
  cbn [steady_orchestrator with_state previous_mean_error_
       s_div s_sub Scalar_R].
  lra.
Qed.

(** A frame that does not improve on mean error 3 leaves the accepted
    identity in place, whatever homography the candidate proposes. *)
Lemma gate_keeps_accepted_homography_witness :
  accepted_H_ (fst (processFrame steady_orchestrator
                      (candidate_with Matx33d_shifted 2%R) 3%R))
  = Matx33d_identity.
Proof.
  exact (proj1 (gate_keeps_accepted_homography steady_orchestrator
                  (candidate_with Matx33d_shifted 2%R) 3%R
                  steady_orchestrator_thresholds eq_refl
                  (or_introl steady_improvement))).
Defined.

(** C4, as stated, fails: with locking switched off the gate passes
    every candidate; a second frame with no improvement at all (and an H
    change of norm 50) replaces the accepted homography. *)
Lemma disabled_locking_passes_every_update :
  (improvement (previous_mean_error_ ungated_after_one_frame) 3 < 0.05)%R
  /\ accepted_H_ ungated_after_one_frame = Matx33d_identity
  /\ accepted_H_ (fst (processFrame ungated_after_one_frame
                         (candidate_with Matx33d_shifted 2%R) 3%R))
     = Matx33d_shifted
  /\ accepted_H_ (fst (processFrame ungated_after_one_frame
                         (candidate_with Matx33d_shifted 2%R) 3%R))
     <> accepted_H_ ungated_after_one_frame.
Proof.
  split; [|split; [|split]].
  - unfold improvement.
    cbn [ungated_after_one_frame processFrame fst with_state
         previous_mean_error_ s_div s_sub Scalar_R].
    lra.
  - reflexivity.
  - reflexivity.
  - change (Matx33d_shifted <> Matx33d_identity).
    intros Heq. apply (f_equal Types.m02) in Heq.
    cbn in Heq. lra.
Qed.

Lemma five_steady_frames_low :
  Forall (fun f : Types.BASolution R * R => (snd f < 5)%R) five_steady_frames.
Proof. unfold five_steady_frames. repeat constructor; cbn [snd]; lra. Qed.

(** Five frames of mean error 3 lock the steady orchestrator. *)
Lemma locking_hysteresis_witness :
  homography_locked_ (run_frames steady_orchestrator five_steady_frames)
  = true.
Proof.
  exact (proj1 (proj1 locking_hysteresis steady_orchestrator
                  five_steady_frames steady_orchestrator_thresholds
                  eq_refl eq_refl (Z.le_refl 0) eq_refl
                  five_steady_frames_low)).
Defined.

(** The same run at [T = double]: unlocked after four frames, locked
    after five on the accepted identity; then mean error 10 keeps the
    lock and mean error 20 releases it. *)
Example double_locking_run :
  let four := run_frames steady_orchestrator_double
                (repeat steady_frame_double 4) in
  let five := run_frames steady_orchestrator_double
                (repeat steady_frame_double 5) in
  homography_locked_ four = false
  /\ homography_locked_ five = true
  /\ locked_H_ five = (Types.mkMatx33d 1 0 0 0 1 0 0 0 1)%float
  /\ homography_locked_
       (fst (processFrame five (fst steady_frame_double) 10%float)) = true
  /\ homography_locked_
       (fst (processFrame five (fst steady_frame_double) 20%float)) = false.
Proof. vm_compute. repeat split. Qed.

(* ===================================================================== *)
(** * More on the candidate orderings                                     *)
(* ===================================================================== *)

Section CandidateOrderings.
Context {A : Type}.
Implicit Types (v pts : list A) (cands : list (list A)).

(** Entry [i] of a vector rotated by [k] is entry [(i + k) mod n] of the
    vector. *)
Lemma lookup_rotate_mod k v i :
  k <= length v -> i < length v ->
  rotate k v !! i = v !! ((i + k) mod length v).
Proof.
  intros Hk Hi. unfold rotate.
  destruct (Nat.lt_ge_cases i (length v - k)) as [Hlo|Hhi].
  - rewrite lookup_app_l by (rewrite length_drop; exact Hlo).
    rewrite lookup_drop, Nat.mod_small by lia. f_equal. lia.
  - rewrite lookup_app_r by (rewrite length_drop; exact Hhi).
    rewrite length_drop, lookup_take_lt by lia.
    f_equal.
    apply (Nat.mod_unique _ _ 1); lia.
Qed.

Lemma lookup_rev v i :
  i < length v -> rev v !! i = v !! (length v - S i).
Proof.
  intros Hi. rewrite rev_alt. apply (reverse_lookup v i Hi).
Qed.

Lemma lookup_cyclic_shifts v k :
  k < length v -> cyclic_shifts v !! k = Some (rotate k v).
Proof.
  intros Hk. unfold cyclic_shifts.
  change (map ?f ?l) with (f <$> l).
  rewrite list_lookup_fmap, lookup_seq_lt by exact Hk. reflexivity.
Qed.

Lemma rotate_0 v : rotate 0 v = v.
Proof. unfold rotate. cbn. apply app_nil_r. Qed.

Lemma rotate_Permutation k v : rotate k v ≡ₚ v.
Proof.
  unfold rotate. rewrite Permutation_app_comm. now rewrite take_drop.
Qed.

(** Rotating twice is rotating once by the sum, taken modulo the
    length. *)
Lemma rotate_rotate j k v :
  j < length v -> k <= length v ->
  rotate j (rotate k v) = rotate ((j + k) mod length v) v.
Proof.
  intros Hj Hk. assert (Hn : 0 < length v) by lia.
  pose proof (Nat.mod_upper_bound (j + k) (length v)) as Hm.
  apply list_eq. intros i.
  destruct (Nat.lt_ge_cases i (length v)) as [Hi|Hi].
  - rewrite lookup_rotate_mod by (rewrite ?length_rotate; lia).
    rewrite length_rotate.
    pose proof (Nat.mod_upper_bound (i + j) (length v)).
    rewrite !lookup_rotate_mod by lia.
    f_equal.
    rewrite Nat.Div0.add_mod_idemp_l, Nat.Div0.add_mod_idemp_r.
    f_equal. lia.
  - rewrite !lookup_ge_None_2 by (rewrite !length_rotate; lia). reflexivity.
Qed.

End CandidateOrderings.

Section CandidateSets.
Context {A : Type}.
Implicit Types (v pts : list A).

(** The shifts of a rotated vector are the shifts of the vector,
    rotated. *)
Lemma cyclic_shifts_rotate k v :
  k <= length v -> cyclic_shifts (rotate k v) = rotate k (cyclic_shifts v).
Proof.
  intros Hk. apply list_eq. intros j.
  destruct (Nat.lt_ge_cases j (length v)) as [Hj|Hj].
  - rewrite lookup_cyclic_shifts by (rewrite length_rotate; exact Hj).
    rewrite lookup_rotate_mod
      by (rewrite length_cyclic_shifts; assumption).
    rewrite length_cyclic_shifts.
    rewrite lookup_cyclic_shifts by (apply Nat.mod_upper_bound; lia).
    f_equal. apply rotate_rotate; assumption.
  - rewrite !lookup_ge_None_2; [reflexivity| |].
    + rewrite length_rotate, length_cyclic_shifts. exact Hj.
    + rewrite length_cyclic_shifts, length_rotate. exact Hj.
Qed.

(** Reversing a rotated vector rotates the reversed vector the other
    way. *)
Lemma rev_rotate k v :
  k <= length v -> rev (rotate k v) = rotate (length v - k) (rev v).
Proof.
  intros Hk. unfold rotate.
  rewrite rev_app_distr, skipn_rev, firstn_rev.
  replace (length v - (length v - k)) with k by lia. reflexivity.
Qed.

End CandidateSets.

Section CandidateTheorems.
Context {A : Type}.
Implicit Types (v pts : list A).

Lemma getCandidateMappings_of_nonempty pts shape_type :
  pts <> [] ->
  getCandidateMappings pts shape_type
  = if wants_reversed shape_type (length pts)
    then cyclic_shifts pts ++ cyclic_shifts (rev pts)
    else cyclic_shifts pts.
Proof.
  intros Hne. rewrite getCandidateMappings_unfold.
  destruct pts; [congruence | reflexivity].
Qed.

(** X1: candidate [k] lists the detected points from vertex [k] on,
    cyclically: its vertex [i] is detected vertex [(i + k) mod n].  When
    reflections are generated, candidate [n + k] walks the other way:
    its vertex [i] is detected vertex [n - 1 - (i + k) mod n]. *)
Theorem candidate_vertex_index pts shape_type k i :
  k < length pts -> i < length pts ->
  (exists cand,
      getCandidateMappings pts shape_type !! k = Some cand
      /\ cand !! i = pts !! ((i + k) mod length pts))
  /\ (admits_reflection shape_type (length pts) ->
      exists cand,
        getCandidateMappings pts shape_type !! (length pts + k) = Some cand
        /\ cand !! i = pts !! (length pts - 1 - (i + k) mod length pts)).
Proof.
  intros Hk Hi.
  assert (Hne : pts <> []) by (intros ->; cbn in Hk; lia).
  rewrite getCandidateMappings_of_nonempty by exact Hne.
  split.
  - exists (rotate k pts). split; [|apply lookup_rotate_mod; lia].
    destruct (wants_reversed _ _).
    + rewrite lookup_app_l by (rewrite length_cyclic_shifts; exact Hk).
      apply lookup_cyclic_shifts. exact Hk.
    + apply lookup_cyclic_shifts. exact Hk.
  - intros Hrefl. apply wants_reversed_true in Hrefl. rewrite Hrefl.
    exists (rotate k (rev pts)). split.
    + rewrite lookup_app_r by (rewrite length_cyclic_shifts; lia).
      rewrite length_cyclic_shifts.
      replace (length pts + k - length pts) with k by lia.
      apply lookup_cyclic_shifts. rewrite length_rev. exact Hk.
    + rewrite lookup_rotate_mod by (rewrite length_rev; lia).
      rewrite length_rev.
      pose proof (Nat.mod_upper_bound (i + k) (length pts)) as Hm.
      rewrite lookup_rev by lia. f_equal. lia.
Qed.

(** X2: every candidate is a reordering of the detected points (same
    points, same multiplicities), and for a non-empty input the first
    candidate is the input as it stands. *)
Theorem candidates_reorder_input pts shape_type :
  Forall (fun cand => cand ≡ₚ pts) (getCandidateMappings pts shape_type)
  /\ (pts <> [] -> getCandidateMappings pts shape_type !! 0 = Some pts).
Proof.
  assert (Hshifts : forall v, Forall (fun cand => cand ≡ₚ v) (cyclic_shifts v)).
  { intros v. unfold cyclic_shifts. apply Forall_map, Forall_forall.
    intros k _. apply rotate_Permutation. }
  split.
  - destruct pts as [|p pts]; [constructor|].
    rewrite getCandidateMappings_of_nonempty by discriminate.
    destruct (wants_reversed _ _); [|apply Hshifts].
    apply Forall_app. split; [apply Hshifts|].
    eapply Forall_impl; [apply Hshifts|].
    intros cand Hcand. cbn beta in Hcand. rewrite Hcand.
    symmetry. apply Permutation_rev.
  - intros Hne. rewrite getCandidateMappings_of_nonempty by exact Hne.
    assert (H0 : 0 < length pts) by (destruct pts; [congruence | cbn; lia]).
    replace (Some pts) with (Some (rotate 0 pts)) by (now rewrite rotate_0).
    destruct (wants_reversed _ _).
    + rewrite lookup_app_l by (rewrite length_cyclic_shifts; exact H0).
      apply lookup_cyclic_shifts. exact H0.
    + apply lookup_cyclic_shifts. exact H0.
Qed.

Lemma getCandidateMappings_rotate_perm pts shape_type k :
  k <= length pts ->
  getCandidateMappings (rotate k pts) shape_type
  ≡ₚ getCandidateMappings pts shape_type.
Proof.
  intros Hk. destruct pts as [|p pts]; [destruct k; reflexivity|].
  set (v := p :: pts) in *.
  assert (Hne : rotate k v <> []).
  { intros Hnil. apply (f_equal length) in Hnil.
    rewrite length_rotate in Hnil. discriminate Hnil. }
  rewrite !getCandidateMappings_of_nonempty by (exact Hne || discriminate).
  rewrite length_rotate.
  rewrite cyclic_shifts_rotate by exact Hk.
  rewrite rev_rotate by exact Hk.
  rewrite cyclic_shifts_rotate by (rewrite length_rev; lia).
  destruct (wants_reversed _ _).
  - apply Permutation_app; apply rotate_Permutation.
  - apply rotate_Permutation.
Qed.

Lemma getCandidateMappings_rev_perm pts shape_type :
  admits_reflection shape_type (length pts) ->
  getCandidateMappings (rev pts) shape_type
  ≡ₚ getCandidateMappings pts shape_type.
Proof.
  intros Hrefl. destruct pts as [|p pts]; [reflexivity|].
  set (v := p :: pts) in *.
  apply wants_reversed_true in Hrefl.
  assert (Hne : rev v <> []).
  { intros Hnil. apply (f_equal length) in Hnil.
    rewrite length_rev in Hnil. discriminate Hnil. }
  rewrite !getCandidateMappings_of_nonempty by (exact Hne || discriminate).
  rewrite length_rev, Hrefl, rev_involutive.
  apply Permutation_app_comm.
Qed.

(** X3: the candidate set does not depend on the vertex the detected
    polygon starts at, nor, when reflections are generated, on its
    orientation: rotating the input, or reversing it, only permutes the
    list of candidates. *)
Theorem candidate_set_invariance pts shape_type :
  (forall k, k <= length pts ->
     getCandidateMappings (rotate k pts) shape_type
     ≡ₚ getCandidateMappings pts shape_type)
  /\ (admits_reflection shape_type (length pts) ->
      getCandidateMappings (rev pts) shape_type
      ≡ₚ getCandidateMappings pts shape_type).
Proof.
  split.
  - intros k Hk. apply getCandidateMappings_rotate_perm. exact Hk.
  - apply getCandidateMappings_rev_perm.
Qed.

End CandidateTheorems.

Lemma candidate_vertex_index_witness :
  exists cand,
    getCandidateMappings [10; 20; 30; 40; 50] "pentagon" !! 2 = Some cand
    /\ cand !! 4 = Some 20.
Proof.
  exact (proj1 (candidate_vertex_index [10; 20; 30; 40; 50] "pentagon" 2 4
                  ltac:(cbn; lia) ltac:(cbn; lia))).
Defined.

Lemma candidates_reorder_input_witness :
  getCandidateMappings [10; 20; 30] "triangle" !! 0 = Some [10; 20; 30].
Proof.
  apply (proj2 (candidates_reorder_input [10; 20; 30] "triangle")).
  discriminate.
Defined.

Lemma candidate_set_invariance_witness :
  getCandidateMappings (rotate 2 [10; 20; 30; 40]) "square"
  ≡ₚ getCandidateMappings [10; 20; 30; 40] "square".
Proof.
  apply (proj1 (candidate_set_invariance [10; 20; 30; 40] "square") 2).
  cbn. lia.
Defined.

(* ===================================================================== *)
(** * More on the robust cost                                             *)
(* ===================================================================== *)

Section HuberShape.
Local Open Scope R_scope.

Lemma sqrt_above_1 (s : R) : 1 < s -> 1 < sqrt s.
Proof. intros Hs. rewrite <- sqrt_1. apply sqrt_lt_1_alt. lra. Qed.

Lemma huber_le_identity (s : R) : huber s <= s.
Proof.
  destruct (Rle_dec s 1) as [Hle|Hgt].
  - rewrite huber_below by exact Hle. lra.
  - rewrite huber_above by lra.
    pose proof (sqrt_above_1 s ltac:(lra)) as Hr.
    pose proof (sqrt_sqrt s ltac:(lra)) as Hsq.
    nra.
Qed.

Lemma huber_monotone (s t : R) : s <= t -> huber s <= huber t.
Proof.
  intros Hst.
  destruct (Rle_dec t 1) as [Ht|Ht].
  - rewrite !huber_below by lra. exact Hst.
  - rewrite (huber_above t) by lra.
    destruct (Rle_dec s 1) as [Hs|Hs].
    + rewrite huber_below by exact Hs.
      pose proof (sqrt_above_1 t ltac:(lra)). lra.
    + rewrite huber_above by lra.
      assert (sqrt s <= sqrt t) by (apply sqrt_le_1_alt; exact Hst). lra.
Qed.

Lemma huber_zero_only_at_zero (s : R) : 0 <= s -> huber s = 0 -> s = 0.
Proof.
  intros Hs Hz. destruct (Rle_dec s 1) as [Hle|Hgt].
  - now rewrite huber_below in Hz.
  - rewrite huber_above in Hz by lra.
    pose proof (sqrt_above_1 s ltac:(lra)). lra.
Qed.

(** X4: the robust cost never exceeds the squared residual it is given,
    is non-negative on squares, grows with its argument, and vanishes on
    non-negative arguments only at 0. *)
Theorem huber_bounds :
  (forall s, huber s <= s)
  /\ (forall s, 0 <= s -> 0 <= huber s)
  /\ (forall s t, s <= t -> huber s <= huber t)
  /\ (forall s, 0 <= s -> huber s = 0 -> s = 0).
Proof.
  split; [exact huber_le_identity|].
  split; [exact huber_nonneg|].
  split; [exact huber_monotone | exact huber_zero_only_at_zero].
Qed.

(** X5: the two branches of the robust cost meet smoothly: at [s2 = 1]
    the function has derivative 1, the slope of the pass-through
    branch. *)
Theorem huber_derivative_at_1 : derivable_pt_lim (huber (T := R)) 1 1.
Proof.
  intros eps Heps.
  exists (mkposreal eps Heps). intros h Hh Hsmall. cbn [pos] in Hsmall.
  rewrite (huber_below 1) by lra.
  destruct (Rle_dec (1 + h) 1) as [Hle|Hgt].
  - rewrite huber_below by exact Hle.
    replace ((1 + h - 1) / h - 1) with 0 by (field; exact Hh).
    rewrite Rabs_R0. exact Heps.
  - assert (Hpos : 0 < h) by lra.
    rewrite huber_above by lra.
    rewrite Rabs_pos_eq in Hsmall by lra.
    pose proof (sqrt_above_1 (1 + h) ltac:(lra)) as Hr.
    pose proof (sqrt_sqrt (1 + h) ltac:(lra)) as Hsq.
    set (r := sqrt (1 + h)) in *.
    assert (Hh' : h = (r - 1) * (r + 1)) by nra.
    replace ((2 * r - 1 - 1) / h - 1) with (- ((r - 1) / (r + 1))).
    2:{ rewrite Hh'. field. lra. }
    rewrite Rabs_Ropp, Rabs_pos_eq.
    + apply Rlt_le_trans with (r - 1); [|nra].
      apply (Rmult_lt_reg_r (r + 1)); [lra|].
      unfold Rdiv. rewrite Rmult_assoc, Rinv_l by lra. nra.
    + apply Rmult_le_pos; [lra|].
      left. apply Rinv_0_lt_compat. lra.
Qed.

End HuberShape.

Lemma huber_bounds_witness :
  (huber 9 <= 9)%R /\ (huber 4 <= huber 9)%R.
Proof.
  split.
  - apply (proj1 huber_bounds).
  - apply (proj1 (proj2 (proj2 huber_bounds))). lra.
Defined.

(* ===================================================================== *)
(** * More on the correspondence search and the residual block            *)
(* ===================================================================== *)

Section CostFacts.
Local Open Scope R_scope.
Variable F : ReprojectionCostFunctor R.
Implicit Types (projected cand : list (Point R)).
Implicit Types (H_params scale_param pose_params residuals : block R).

(** A search that ends has evaluated every candidate. *)
Lemma search_from_done_costs_defined projected :
  forall (cands : list (list (Point R))) c_idx min_cost best r,
    search_from F projected cands c_idx min_cost best = Done r ->
    costs_defined F projected cands.
Proof.
  induction cands as [|cand rest IH]; intros c_idx min_cost best r Hr.
  - constructor.
  - cbn [search_from] in Hr.
    destruct (candidate_cost F projected cand) as [c|] eqn:Hc;
      [|discriminate Hr].
    rewrite bind_done in Hr.
    constructor; [now exists c|].
    destruct (s_ltb c min_cost); eapply IH; exact Hr.
Qed.

Lemma correspond_and_fill_done_costs_defined projected residuals r :
  correspond_and_fill F projected residuals = Done r ->
  costs_defined F projected
    (getCandidateMappings (detected_points_ F) (shape_type_ F)).
Proof.
  unfold correspond_and_fill. intros Hr.
  destruct (search_from F projected _ 0 s_max (-1)) as [found|] eqn:Hs;
    [|discriminate Hr].
  eapply search_from_done_costs_defined. exact Hs.
Qed.

End CostFacts.

Section EvaluationFacts.
Local Open Scope R_scope.
Implicit Types (F : ReprojectionCostFunctor R).
Implicit Types (projected cand : list (Point R)).
Implicit Types (H_params scale_param pose_params residuals : block R).

(** Every slot below [2 * n] is slot [2i] or [2i + 1] of a vertex
    [i < n]. *)
Lemma slot_of_vertex (k n : nat) :
  (k < 2 * n)%nat ->
  exists i, (i < n)%nat /\ (k = 2 * i \/ k = 2 * i + 1)%nat.
Proof.
  intros Hk. exists (k / 2)%nat.
  pose proof (Nat.div_mod_eq k 2) as Hdm.
  pose proof (Nat.mod_upper_bound k 2 ltac:(lia)) as Hm.
  split; [apply Nat.Div0.div_lt_upper_bound; lia | lia].
Qed.

(** X8: an evaluation that returns, returns [true], and it writes no
    residual slot at or beyond [2 * |model|]: a block of two entries per
    model vertex is all it touches. *)
Theorem operator_call_frame F H_params scale_param pose_params residuals
    (b : bool) (residuals' : block R) :
  operator_call F H_params scale_param pose_params residuals
  = Done (b, residuals') ->
  b = true
  /\ forall k, (2 * length (model_points_ F) <= k)%nat ->
       residuals' k = residuals k.
Proof.
  rewrite operator_call_projected. intros Hrun.
  pose proof (correspond_and_fill_done_costs_defined F _ _ _ Hrun) as Hdef.
  destruct (correspond_and_fill_cases F _ residuals Hdef)
    as [[_ Hzero]|(j & best & c_best & res1 & _ & _ & _ & _ & _ & _
                   & Hwin & _ & Hframe)].
  - rewrite Hzero in Hrun. injection Hrun as <- <-.
    split; [reflexivity|]. intros k Hk. rewrite write_zeros_slots.
    destruct (Nat.leb_spec (2 * 0) k),
      (Nat.ltb_spec k (2 * (0 + length (model_points_ F))));
      cbn [andb]; try reflexivity; lia.
  - rewrite Hwin in Hrun. injection Hrun as <- <-.
    split; [reflexivity|]. intros k Hk. apply Hframe.
    rewrite length_projected_points. exact Hk.
Qed.

(** X10: a piece given weight 0 contributes nothing: with a non-zero
    [f_scale] and a model polygon no longer than the detected one, every
    residual slot of the piece is written 0, wherever the projection
    falls. *)
Theorem zero_weight_zero_residuals (detected model : list (Point R))
    (shape_type : string) (f_scale : R)
    H_params scale_param pose_params residuals :
  let F := mkReprojectionCostFunctor detected model shape_type 0 f_scale in
  f_scale <> 0 -> (length model <= length detected)%nat ->
  exists residuals',
    operator_call F H_params scale_param pose_params residuals
    = Done (true, residuals')
    /\ forall k, (k < 2 * length model)%nat -> residuals' k = 0.
Proof.
  intros F Hfs Hlen.
  set (projected := projected_points F H_params scale_param pose_params).
  assert (Hlp : length projected = length model)
    by apply length_projected_points.
  assert (Hdef : costs_defined F projected
                   (getCandidateMappings (detected_points_ F) (shape_type_ F))).
  { apply costs_defined_well_formed; [exact Hfs | rewrite Hlp; exact Hlen]. }
  rewrite operator_call_projected. fold projected.
  destruct (correspond_and_fill_cases F projected residuals Hdef)
    as [[_ Hzero]|(j & best & c_best & residuals' & _ & _ & _ & _
                   & _ & Hbl & Hrun & Hval & _)].
  - eexists. split; [exact Hzero|]. intros k Hk. rewrite write_zeros_slots.
    change (length (model_points_ F)) with (length model).
    destruct (Nat.leb_spec (2 * 0) k),
      (Nat.ltb_spec k (2 * (0 + length model)));
      cbn [andb]; try reflexivity; lia.
  - exists residuals'. split; [exact Hrun|]. intros k Hk.
    rewrite <- Hlp in Hk.
    destruct (slot_of_vertex k (length projected) Hk) as (i & Hi & Hslot).
    destruct (lookup_lt_is_Some_2 projected i Hi) as [q Hq].
    destruct (lookup_lt_is_Some_2 best i ltac:(lia)) as [d Hd].
    destruct (Hval i q d Hq Hd) as [Hx Hy].
    change (weight_sqrt_ F) with (sqrt 0) in Hx, Hy. rewrite sqrt_0 in Hx, Hy.
    destruct Hslot as [->| ->]; [rewrite Hx | rewrite Hy]; lra.
Qed.

End EvaluationFacts.

Lemma operator_call_frame_witness :
  write_zeros 0 3 stale_residuals 6 = stale_residuals 6.
Proof.
  apply (proj2 (operator_call_frame triangle_functor identity_H unit_scale
                  (pose_block 0 1e308 0) stale_residuals true _
                  far_triangle_evaluation)).
  cbn. lia.
Defined.

Lemma zero_weight_zero_residuals_witness :
  exists residuals',
    operator_call
      (mkReprojectionCostFunctor unit_triangle unit_triangle "triangle" 0 1)%R
      identity_H unit_scale (pose_block 0 40 30)%R stale_residuals
    = Done (true, residuals')
    /\ residuals' 0 = 0%R.
Proof.
  destruct (zero_weight_zero_residuals unit_triangle unit_triangle "triangle"
              1 identity_H unit_scale (pose_block 0 40 30) stale_residuals)%R
    as (residuals' & Hrun & Hzero).
  - lra.
  - cbn. lia.
  - exists residuals'. split; [exact Hrun|]. apply Hzero. cbn. lia.
Defined.

(** The same at [T = double]: weight 0 zeroes the block wherever the
    piece is projected. *)
Example double_zero_weight :
  observed 8 (operator_body
                (mkReprojectionCostFunctor
                   (detected_points_ triangle_functor_double)
                   (model_points_ triangle_functor_double) "triangle" 0 1)
                identity_H_double 1 1 0 40 30 stale_residuals_double)%float
  = Done (true, [0; 0; 0; 0; 0; 0; 7; 7]%float).
Proof. vm_compute. reflexivity. Qed.

(* ===================================================================== *)
(** * The parameter blocks and the pose transform                         *)
(* ===================================================================== *)

Section ParameterReads.
Context {T : Type} {ST : Scalar T} {TT : Trig T}.
Implicit Types (F : ReprojectionCostFunctor T).
Implicit Types (H_params scale_param pose_params residuals : block T).

Lemma project_model_points_agree H_params H_params'
    (scale cos_theta sin_theta tx ty : T) (model : list (Point T)) :
  (forall i, i < 8 -> H_params i = H_params' i) ->
  project_model_points H_params scale cos_theta sin_theta tx ty model
  = project_model_points H_params' scale cos_theta sin_theta tx ty model.
Proof.
  intros Hagree. induction model as [|p_model rest IH]; [reflexivity|].
  cbn [project_model_points]. rewrite IH. f_equal.
  unfold project_point, perspective_w, numerator_x, numerator_y.
  cbn [H_entry]. rewrite !Hagree by lia. reflexivity.
Qed.

(** X11: the evaluation reads entries 0 to 7 of the homography block,
    entry 0 of the scale block and entries 0 to 2 of the pose block, and
    nothing else of them: two calls whose blocks agree there give the
    same outcome, for every scalar type. *)
Theorem operator_call_reads_declared_entries F
    H_params H_params' scale_param scale_param' pose_params pose_params'
    residuals :
  (forall i, i < 8 -> H_params i = H_params' i) ->
  scale_param 0 = scale_param' 0 ->
  (forall i, i < 3 -> pose_params i = pose_params' i) ->
  operator_call F H_params scale_param pose_params residuals
  = operator_call F H_params' scale_param' pose_params' residuals.
Proof.
  intros HH Hs Hp. unfold operator_call, operator_body.
  rewrite Hs, !Hp by lia.
  rewrite (project_model_points_agree H_params H_params') by exact HH.
  reflexivity.
Qed.

End ParameterReads.

Section PoseTransform.
Local Open Scope R_scope.

(** X12: the pose transform is a similarity: between any two model
    vertices it multiplies squared distances by [scale * scale], whatever
    the angle and the translation. *)
Theorem plane_point_similarity (scale theta tx ty : R) (p1 p2 : Point R) :
  let q1 := plane_point scale (cos theta) (sin theta) tx ty p1 in
  let q2 := plane_point scale (cos theta) (sin theta) tx ty p2 in
  (pt_x q1 - pt_x q2) * (pt_x q1 - pt_x q2)
  + (pt_y q1 - pt_y q2) * (pt_y q1 - pt_y q2)
  = scale * scale
    * ((pt_x p1 - pt_x p2) * (pt_x p1 - pt_x p2)
       + (pt_y p1 - pt_y p2) * (pt_y p1 - pt_y p2)).
Proof.
  intros q1 q2. subst q1 q2. unfold plane_point.
  cbn [pt_x pt_y s_add s_sub s_mul Scalar_R].
  pose proof (sin2_cos2 theta) as Hsc. unfold Rsqr in Hsc.
  set (c := cos theta) in *. set (s := sin theta) in *.
  replace (scale * scale
           * ((pt_x p1 - pt_x p2) * (pt_x p1 - pt_x p2)
              + (pt_y p1 - pt_y p2) * (pt_y p1 - pt_y p2)))
    with ((s * s + c * c)
          * (scale * scale
             * ((pt_x p1 - pt_x p2) * (pt_x p1 - pt_x p2)
                + (pt_y p1 - pt_y p2) * (pt_y p1 - pt_y p2))))
    by (rewrite Hsc; ring).
  ring.
Qed.

(** X13: the clamp of the perspective denominator is idempotent, leaves
    every denominator of magnitude at least [1e-8] alone, and never
    moves a denominator by [2e-8] or more. *)
Theorem clamp_w_perturbation :
  (forall w : R, clamp_w (clamp_w w) = clamp_w w)
  /\ (forall w : R, 1e-8 <= Rabs w -> clamp_w w = w)
  /\ (forall w : R, Rabs (clamp_w w - w) < 2e-8).
Proof.
  split; [|split].
  - intros w. apply clamp_w_large. apply clamp_w_bound.
  - exact clamp_w_large.
  - intros w. destruct (Rlt_dec (Rabs w) 1e-8) as [Hs|Hl].
    + rewrite clamp_w_small by exact Hs.
      apply Rabs_def2 in Hs. apply Rabs_def1; lra.
    + rewrite clamp_w_large by lra.
      replace (w - w) with 0 by lra. rewrite Rabs_R0. lra.
Qed.

End PoseTransform.

Lemma operator_call_reads_declared_entries_witness :
  operator_call triangle_functor identity_H unit_scale (pose_block 0 0 0)
    stale_residuals
  = operator_call triangle_functor
      (block_of 5%R [1; 0; 0; 0; 1; 0; 0; 0]%R) (block_of 5%R [1%R])
      (block_of 5 [0; 0; 0])%R stale_residuals.
Proof.
  apply operator_call_reads_declared_entries.
  - intros i Hi. do 8 (destruct i as [|i]; [reflexivity|]). lia.
  - reflexivity.
  - intros i Hi. do 3 (destruct i as [|i]; [reflexivity|]). lia.
Defined.

Lemma clamp_w_perturbation_witness : clamp_w 5%R = 5%R.
Proof.
  apply (proj1 (proj2 clamp_w_perturbation)).
  rewrite Rabs_pos_eq; lra.
Defined.

(* ===================================================================== *)
(** * The least cost and the listing of the detected polygon              *)
(* ===================================================================== *)

Section LeastCost.
Local Open Scope R_scope.
Implicit Types (F : ReprojectionCostFunctor R).
Implicit Types (projected cand : list (Point R)).

(** The cost loop reads the functor's weight and robustness scale only. *)
Lemma candidate_cost_from_fields F F' projected cand :
  weight_sqrt_ F' = weight_sqrt_ F -> f_scale_ F' = f_scale_ F ->
  forall i cost,
    candidate_cost_from F' projected cand i cost
    = candidate_cost_from F projected cand i cost.
Proof.
  intros Hw Hfs. induction projected as [|q rest IH]; intros i cost.
  - reflexivity.
  - cbn [candidate_cost_from]. rewrite Hw, Hfs.
    destruct (at_index cand i) as [d|]; [|reflexivity].
    cbn [mbind outcome_bind obind].
    destruct (checked_div ((pt_x q - pt_x d) * weight_sqrt_ F)%sc (f_scale_ F))
      as [rx|]; [|reflexivity].
    cbn [mbind outcome_bind obind].
    destruct (checked_div ((pt_y q - pt_y d) * weight_sqrt_ F)%sc (f_scale_ F))
      as [ry|]; [|reflexivity].
    cbn [mbind outcome_bind obind]. apply IH.
Qed.

Lemma search_from_fields F F' projected :
  weight_sqrt_ F' = weight_sqrt_ F -> f_scale_ F' = f_scale_ F ->
  forall (cands : list (list (Point R))) c_idx min_cost best,
    search_from F' projected cands c_idx min_cost best
    = search_from F projected cands c_idx min_cost best.
Proof.
  intros Hw Hfs. induction cands as [|cand rest IH];
    intros c_idx min_cost best; [reflexivity|].
  cbn [search_from]. unfold candidate_cost.
  rewrite (candidate_cost_from_fields F F') by assumption.
  destruct (candidate_cost_from F projected cand 0 s_zero) as [c|];
    [|reflexivity].
  rewrite !bind_done. destruct (s_ltb c min_cost); apply IH.
Qed.

(** What a finished search from the initial bound holds: the bound
    itself and index -1 when no cost is below it, and otherwise a cost
    of some candidate that no candidate undercuts. *)
Lemma search_outcome F projected (cands : list (list (Point R))) m b :
  search_from F projected cands 0 DBL_MAX (-1) = Done (m, b) ->
  (forall cand c, cand ∈ cands ->
     candidate_cost F projected cand = Done c -> m <= c)
  /\ m <= DBL_MAX
  /\ ((b = (-1)%Z /\ m = DBL_MAX)
      \/ (b <> (-1)%Z /\ m < DBL_MAX
          /\ exists cand, cand ∈ cands
               /\ candidate_cost F projected cand = Done m)).
Proof.
  intros Hrun.
  pose proof (search_from_done_costs_defined F projected _ _ _ _ _ Hrun)
    as Hdef.
  destruct (search_from_result F projected cands 0 DBL_MAX (-1) Hdef)
    as (m' & b' & Hrun' & Hcases).
  rewrite Hrun in Hrun'. injection Hrun' as <- <-.
  destruct Hcases as [(Hb & Hm & Hall)|(j & cand & Hj & Hb & Hc & Hlt & Hall & _)];
    rewrite Forall_forall in Hall.
  - subst m. split; [intros cand c Hin Hc; exact (Hall cand Hin c Hc)|].
    split; [lra|]. left. split; [exact Hb | reflexivity].
  - split; [intros cand' c Hin Hc'; exact (Hall cand' Hin c Hc')|].
    split; [lra|]. right. split; [lia|]. split; [exact Hlt|].
    exists cand. split; [eapply list_elem_of_lookup_2; exact Hj | exact Hc].
Qed.

(** Two finished searches over lists holding the same candidates end
    with the same least cost, and find a candidate or not together. *)
Lemma search_same_candidates F projected
    (cands cands' : list (list (Point R))) m1 b1 m2 b2 :
  (forall cand, cand ∈ cands <-> cand ∈ cands') ->
  search_from F projected cands 0 DBL_MAX (-1) = Done (m1, b1) ->
  search_from F projected cands' 0 DBL_MAX (-1) = Done (m2, b2) ->
  m1 = m2 /\ (b1 = (-1)%Z <-> b2 = (-1)%Z).
Proof.
  intros Hsame H1 H2.
  destruct (search_outcome F projected cands m1 b1 H1) as (Hall1 & Hle1 & Hc1).
  destruct (search_outcome F projected cands' m2 b2 H2) as (Hall2 & Hle2 & Hc2).
  destruct Hc1 as [[Hb1 Hm1]|(Hb1 & Hlt1 & cand1 & Hin1 & Hcost1)];
    destruct Hc2 as [[Hb2 Hm2]|(Hb2 & Hlt2 & cand2 & Hin2 & Hcost2)].
  - split; [lra | tauto].
  - apply Hsame in Hin2. pose proof (Hall1 _ _ Hin2 Hcost2). lra.
  - apply Hsame in Hin1. pose proof (Hall2 _ _ Hin1 Hcost1). lra.
  - apply Hsame in Hin1. apply Hsame in Hin2.
    pose proof (Hall1 _ _ Hin2 Hcost2). pose proof (Hall2 _ _ Hin1 Hcost1).
    split; [lra | tauto].
Qed.

(** X14: the least robust cost the search finds, and whether it finds a
    candidate at all, do not depend on the vertex at which the detected
    polygon is listed to start: for two functors that differ only in
    that the detected points of one are those of the other rotated by
    [k], finished searches over the same projection agree. *)
Theorem least_cost_independent_of_start_vertex
    (pts model : list (Point R)) (shape_type : string) (weight f_scale : R)
    (k : nat) (projected : list (Point R)) (m1 m2 : R) (b1 b2 : Z) :
  let F := mkReprojectionCostFunctor pts model shape_type weight f_scale in
  let F' :=
    mkReprojectionCostFunctor (rotate k pts) model shape_type weight f_scale in
  (k <= length pts)%nat ->
  search_from F projected
    (getCandidateMappings (detected_points_ F) (shape_type_ F))
    0 s_max (-1) = Done (m1, b1) ->
  search_from F' projected
    (getCandidateMappings (detected_points_ F') (shape_type_ F'))
    0 s_max (-1) = Done (m2, b2) ->
  m1 = m2 /\ (b1 = (-1)%Z <-> b2 = (-1)%Z).
Proof.
  intros F F' Hk H1 H2.
  rewrite (search_from_fields F F') in H2 by reflexivity.
  refine (search_same_candidates F projected _ _ m1 b1 m2 b2 _ H1 H2).
  intros cand. symmetry.
  apply (elem_of_Permutation_proper cand
           (getCandidateMappings (rotate k pts) shape_type)
           (getCandidateMappings pts shape_type)).
  apply getCandidateMappings_rotate_perm. exact Hk.
Qed.

End LeastCost.

Lemma least_cost_independent_of_start_vertex_witness :
  exists m1 b1 m2 b2,
    search_from triangle_functor unit_triangle
      (getCandidateMappings unit_triangle "triangle") 0 DBL_MAX (-1)
    = Done (m1, b1)
    /\ search_from
         (mkReprojectionCostFunctor (rotate 1 unit_triangle) unit_triangle
            "triangle" 1 1)%R unit_triangle
         (getCandidateMappings (rotate 1 unit_triangle) "triangle")
         0 DBL_MAX (-1)
       = Done (m2, b2)
    /\ m1 = m2.
Proof.
  destruct (search_from_result triangle_functor unit_triangle
              (getCandidateMappings unit_triangle "triangle") 0 DBL_MAX (-1))
    as (m1 & b1 & H1 & _).
  { apply (costs_defined_well_formed triangle_functor unit_triangle).
    - apply triangle_functor_fields.
    - cbn. lia. }
  destruct (search_from_result
              (mkReprojectionCostFunctor (rotate 1 unit_triangle) unit_triangle
                 "triangle" 1 1)%R unit_triangle
              (getCandidateMappings (rotate 1 unit_triangle) "triangle")
              0 DBL_MAX (-1))
    as (m2 & b2 & H2 & _).
  { apply (costs_defined_well_formed
             (mkReprojectionCostFunctor (rotate 1 unit_triangle) unit_triangle
                "triangle" 1 1)%R unit_triangle).
    - cbn. lra.
    - cbn. lia. }
  exists m1, b1, m2, b2. split; [exact H1|]. split; [exact H2|].
  exact (proj1 (least_cost_independent_of_start_vertex unit_triangle
                  unit_triangle "triangle" 1 1 1 unit_triangle m1 m2 b1 b2
                  ltac:(cbn; lia) H1 H2)%R).
Defined.

(* ===================================================================== *)
(** * The prior cost functors                                             *)
(* ===================================================================== *)

Section PriorResiduals.
Local Open Scope R_scope.
Implicit Types (h_prior h_params scale_param residuals : block R).

(** The loop over the prior's entries, from entry [i] on. *)
Lemma h_prior_loop_slots (P : HPriorCostFunctor R) h_params :
  forall todo i residuals,
    (i + todo <= length (h_prior_ P))%nat ->
    exists residuals',
      h_prior_loop P h_params i todo residuals = Done residuals'
      /\ (forall k p, (i <= k < i + todo)%nat -> h_prior_ P !! k = Some p ->
            residuals' k = lambda_h_sqrt_ P * (h_params k - p))
      /\ (forall k, (k < i \/ i + todo <= k)%nat ->
            residuals' k = residuals k).
Proof.
  induction todo as [|todo IH]; intros i residuals Hlen.
  - exists residuals. split; [reflexivity|]. split; [intros; lia | reflexivity].
  - cbn [h_prior_loop].
    destruct (lookup_lt_is_Some_2 (h_prior_ P) i) as [p Hp]; [lia|].
    rewrite (at_index_some _ _ _ Hp), bind_done.
    edestruct (IH (S i)) as (residuals' & Hrun & Hval & Hframe); [lia|].
    exists residuals'. split; [exact Hrun|]. split.
    + intros k p' Hk Hp'. destruct (Nat.eq_dec k i) as [->|Hne].
      * rewrite Hframe by lia. rewrite store_same.
        assert (p' = p) by congruence. subst p'. reflexivity.
      * apply Hval; [lia | exact Hp'].
    + intros k Hk. rewrite Hframe by lia. apply store_other. lia.
Qed.

Lemma lookup_copied_prior h_prior (lambda_h : R) (i : nat) :
  (i < 8)%nat ->
  h_prior_ (mkHPriorCostFunctor h_prior lambda_h) !! i = Some (h_prior i).
Proof.
  intros Hi. cbn [h_prior_ mkHPriorCostFunctor].
  change (map ?f ?l) with (f <$> l).
  rewrite list_lookup_fmap, lookup_seq_lt by exact Hi. reflexivity.
Qed.

(** The evaluation of a prior built by the constructor. *)
Lemma HPrior_call_constructed h_prior (lambda_h : R) h_params residuals :
  exists residuals',
    HPrior_call (mkHPriorCostFunctor h_prior lambda_h) h_params residuals
    = Done (true, residuals')
    /\ (forall i, (i < 8)%nat ->
          residuals' i = sqrt lambda_h * (h_params i - h_prior i))
    /\ (forall k, (8 <= k)%nat -> residuals' k = residuals k).
Proof.
  destruct (h_prior_loop_slots (mkHPriorCostFunctor h_prior lambda_h)
              h_params 8 0 residuals)
    as (residuals' & Hrun & Hval & Hframe).
  { cbn. lia. }
  exists residuals'. unfold HPrior_call. rewrite Hrun, bind_done.
  split; [reflexivity|]. split.
  - intros i Hi.
    apply (Hval i (h_prior i)); [lia | apply lookup_copied_prior; exact Hi].
  - intros k Hk. apply Hframe. lia.
Qed.

(** X15: for a prior built with [lambda_h >= 0], the evaluation
    returns [true], writes slots 0 to 7 and no other, and the sum of the
    squares of the eight residuals is [lambda_h] times the squared
    distance between the eight homography parameters and the prior. *)
Theorem HPrior_energy h_prior (lambda_h : R) h_params residuals :
  0 <= lambda_h ->
  exists residuals',
    HPrior_call (mkHPriorCostFunctor h_prior lambda_h) h_params residuals
    = Done (true, residuals')
    /\ sum_squares 8 residuals'
       = lambda_h * sum_squares 8 (fun i => h_params i - h_prior i)
    /\ (forall k, (8 <= k)%nat -> residuals' k = residuals k).
Proof.
  intros Hl.
  destruct (HPrior_call_constructed h_prior lambda_h h_params residuals)
    as (residuals' & Hrun & Hval & Hframe).
  exists residuals'. split; [exact Hrun|]. split; [|exact Hframe].
  unfold sum_squares. cbn [seq map fold_right].
  rewrite !Hval by lia.
  pose proof (sqrt_sqrt lambda_h Hl) as Hs.
  set (r := sqrt lambda_h) in *. rewrite <- Hs. ring.
Qed.

(** X17: the scale prior returns [true] and writes slot 0 only; for
    [lambda_s >= 0] the square of the residual is [lambda_s] times the
    squared difference between the scale and its prior. *)
Theorem ScalePrior_residual (scale_prior lambda_s : R) scale_param residuals :
  let out :=
    ScalePrior_call (mkScalePriorCostFunctor scale_prior lambda_s)
      scale_param residuals in
  fst out = true
  /\ (forall k, k <> 0%nat -> snd out k = residuals k)
  /\ (0 <= lambda_s ->
      snd out 0%nat * snd out 0%nat
      = lambda_s * ((scale_param 0%nat - scale_prior)
                    * (scale_param 0%nat - scale_prior))).
Proof.
  intros out. subst out. unfold ScalePrior_call.
  cbn [fst snd lambda_s_sqrt_ scale_prior_ mkScalePriorCostFunctor
       s_sqrt s_mul s_sub Scalar_R].
  split; [reflexivity|]. split; [intros k Hk; apply store_other; exact Hk|].
  rewrite store_same.
  intros Hl. pose proof (sqrt_sqrt lambda_s Hl) as Hs.
  set (r := sqrt lambda_s) in *. rewrite <- Hs. ring.
Qed.

End PriorResiduals.

Lemma HPrior_energy_witness :
  exists residuals',
    HPrior_call (mkHPriorCostFunctor identity_H 4%R) vanishing_H
      stale_residuals = Done (true, residuals')
    /\ residuals' 8 = 7%R.
Proof.
  destruct (HPrior_energy identity_H 4 vanishing_H stale_residuals)%R
    as (residuals' & Hrun & _ & Hframe); [lra|].
  exists residuals'. split; [exact Hrun|].
  rewrite Hframe by lia. reflexivity.
Defined.

Lemma ScalePrior_residual_witness :
  (snd (ScalePrior_call (mkScalePriorCostFunctor 2 9) unit_scale
          stale_residuals) 0%nat
   * snd (ScalePrior_call (mkScalePriorCostFunctor 2 9) unit_scale
            stale_residuals) 0%nat
   = 9 * ((unit_scale 0%nat - 2) * (unit_scale 0%nat - 2)))%R.
Proof.
  apply (proj2 (proj2 (ScalePrior_residual 2 9 unit_scale stale_residuals)))%R.
  lra.
Defined.

(** The priors at [T = double], with [lambda = 4]: each residual is
    twice the difference to the prior. *)
Example double_priors :
  observed 10 (HPrior_call (mkHPriorCostFunctor identity_H_double 4)
                 vanishing_H_double stale_residuals_double)%float
  = Done (true, [0; 0; 0; 0; 0; 0; -2; 0; 7; 7]%float)
  /\ slots 2 (snd (ScalePrior_call (mkScalePriorCostFunctor 1.5 4)
                     (block_of 0 [2]) stale_residuals_double))%float
     = [1; 7]%float.
Proof. split; vm_compute; reflexivity. Qed.

(* ===================================================================== *)
(** * When the evaluation stays within defined behaviour                  *)
(* ===================================================================== *)

Section DefinedBehaviour.
Local Open Scope R_scope.
Implicit Types (F : ReprojectionCostFunctor R).
Implicit Types (H_params scale_param pose_params residuals : block R).

Lemma correspond_and_fill_done F (projected : list (Point R)) residuals :
  costs_defined F projected
    (getCandidateMappings (detected_points_ F) (shape_type_ F)) ->
  exists residuals',
    correspond_and_fill F projected residuals = Done (true, residuals').
Proof.
  intros Hdef.
  destruct (correspond_and_fill_cases F projected residuals Hdef)
    as [[_ Hrun]|(j & best & c & residuals' & _ & _ & _ & _ & _ & _ & Hrun & _)];
    eauto.
Qed.

(** X18: the evaluation divides by zero or reads past a candidate's end
    in exactly one situation: there are detected points and model
    points, and [f_scale_] is zero or the model polygon has more
    vertices than the detected one.  In every other case it returns. *)
Theorem operator_call_defined_iff F H_params scale_param pose_params
    residuals :
  (exists r,
      operator_call F H_params scale_param pose_params residuals = Done r)
  <-> (detected_points_ F = [] \/ model_points_ F = []
       \/ (f_scale_ F <> 0
           /\ (length (model_points_ F) <= length (detected_points_ F))%nat)).
Proof.
  rewrite operator_call_projected.
  set (projected := projected_points F H_params scale_param pose_params).
  assert (Hlp : length projected = length (model_points_ F))
    by apply length_projected_points.
  split.
  - intros [r Hr].
    pose proof (correspond_and_fill_done_costs_defined F _ _ _ Hr) as Hdef.
    destruct (detected_points_ F) as [|p pts] eqn:Hdet; [now left|right].
    pose proof (getCandidateMappings_nonempty (p :: pts) (shape_type_ F)
                  ltac:(discriminate)) as Hne.
    pose proof (getCandidateMappings_lengths (p :: pts) (shape_type_ F))
      as Hlens.
    destruct (getCandidateMappings (p :: pts) (shape_type_ F))
      as [|cand rest]; [congruence|].
    apply Forall_cons in Hdef as [Hcand _].
    apply Forall_cons in Hlens as [Hlen _].
    apply candidate_cost_from_defined in Hcand as [Hnil|[Hfs Hle]].
    + left. apply (f_equal length) in Hnil. rewrite Hlp in Hnil.
      destruct (model_points_ F); [reflexivity | discriminate Hnil].
    + right. split; [exact Hfs|]. rewrite <- Hlp, <- Hlen. exact Hle.
  - intros Hcases.
    destruct (correspond_and_fill_done F projected residuals)
      as [residuals' Hrun]; [|eauto].
    destruct Hcases as [Hdet|[Hmod|[Hfs Hle]]].
    + rewrite Hdet. constructor.
    + assert (Hnil : projected = []).
      { destruct projected; [reflexivity|].
        rewrite Hmod in Hlp. discriminate Hlp. }
      apply Forall_forall. intros cand _.
      apply candidate_cost_from_defined. left. exact Hnil.
    + apply costs_defined_well_formed; [exact Hfs | rewrite Hlp; exact Hle].
Qed.

End DefinedBehaviour.

Lemma operator_call_defined_iff_witness :
  exists r,
    operator_call triangle_functor vanishing_H unit_scale (pose_block 0 0 0)
      stale_residuals = Done r.
Proof.
  apply (proj2 (operator_call_defined_iff triangle_functor vanishing_H
                  unit_scale (pose_block 0 0 0) stale_residuals)).
  right. right. split; [apply triangle_functor_fields | cbn; lia].
Defined.

(** At [T = double] the two faults show as such: a zero [f_scale], and a
    detected polygon shorter than the model. *)
Example double_faults :
  observed 6 (operator_body
                (mkReprojectionCostFunctor
                   (detected_points_ triangle_functor_double)
                   (model_points_ triangle_functor_double) "triangle" 1 0)
                identity_H_double 1 1 0 0 0 stale_residuals_double)%float
  = Undefined DivisionByZero
  /\ observed 6 (operator_body
                   (mkReprojectionCostFunctor [mkPoint 0 0; mkPoint 1 0]
                      (model_points_ triangle_functor_double) "square" 1 1)
                   identity_H_double 1 1 0 0 0 stale_residuals_double)%float
     = Undefined IndexOutOfRange.
Proof. split; vm_compute; reflexivity. Qed.
